(** * ContentService: cache adapter, configuration, trending and route layer

    A shallow embedding of the TypeScript sources of the catalog-serving
    service, and the properties its design document states about them.

    Conventions of the embedding:
    - a JavaScript exception is a value of [exn]; a computation that may
      throw returns an [outcome];
    - code that talks to the shared Redis store is written in the monad
      [M], which threads the store and propagates exceptions; [await] is
      sequencing, one call runs without interleaving;
    - [null] results of the service layer ([T | null]) are [option]s, but
      the cache adapter, whose result is whatever [JSON.parse] produced,
      returns a JavaScript value, of which [js_null] is one. *)

From Stdlib Require Import ZArith QArith Qcanon Ascii String List Sorting.Sorted.
From Stdlib Require Import DecimalString DecimalFacts DecimalPos.
From stdpp Require Import sorting lexico pretty numbers base tactics option list gmap strings.

Set Warnings "-register-all".

Open Scope string_scope.
Open Scope list_scope.
Open Scope Z_scope.

(* ===================================================================== *)
(** * JavaScript values that the platform provides                        *)
(* ===================================================================== *)

Module Js.

(** Modelled from the spec: the declaration of [QualityIssue] (in
    services/data-quality-monitor) is missing; the kinds are the ones
    the data model lists, the timestamp check of the monitor included.
    The routes read [issue.kind] and [issue.attributes.episodeId]. *)
Inductive IssueKind :=
| EpisodeMissingFinalizedAsset
| SeriesHasZeroPlayableEpisodes
| FeedItemReferencesNonexistentSeries
| TimestampMalformedOrFarFuture.

Record IssueAttributes := {
  episodeId : option string;
  seriesId : option string;
}.

Record QualityIssue := {
  kind : IssueKind;
  attributes : IssueAttributes;
}.

(** The exceptions the modelled code throws, catches or lets through.
    [error instanceof C] is a match on the constructor. *)
Inductive exn :=
| SyntaxError (input : string)
| Error (message : string)
| HttpError (statusCode : Z) (message : string)
| CatalogServiceError (code : string) (message : string)
| CatalogConsistencyError (issue : QualityIssue).

(** Result of running a piece of code: it returns or it throws. *)
Inductive outcome (E A : Type) :=
| Return (a : A)
| Throw (e : E).
Arguments Return {E A} a.
Arguments Throw {E A} e.

(** [!x] for a value that is a string or [null]: the empty string and
    [null] are the falsy ones. *)
Definition falsy_string (x : option string) : bool :=
  match x with
  | None => true
  | Some s => if decide (s = "") then true else false
  end.

(** The JSON functions of the runtime. [JSON_parse] is [None] where
    [JSON.parse] throws a [SyntaxError]; [value] stands for the values
    [JSON.stringify] turns into a string. *)
Class JsonRuntime := {
  value : Type;
  js_null : value;
  JSON_parse : string → option value;
  JSON_stringify : value → string;
}.

End Js.
Export Js.

(* ===================================================================== *)
(** * The Redis store, as far as the adapter uses it                      *)
(* ===================================================================== *)

Module Redis.

(** A string key holds a payload and, when it was written with [EX],
    the second at which it expires. *)
Record entry := Entry {
  payload : string;
  expireAt : option Z;
}.

(** The store and its clock, in seconds. *)
Record redis := Redis {
  now : Z;
  db : gmap string entry;
}.

Definition expired (t : Z) (e : entry) : bool :=
  match expireAt e with
  | Some d => bool_decide (d ≤ t)
  | None => false
  end.

(** What a reader sees under [key]: expired keys are gone. *)
Definition live (r : redis) (key : string) : option entry :=
  match db r !! key with
  | Some e => if expired (now r) e then None else Some e
  | None => None
  end.

(** [EXISTS key]. *)
Definition exists_ (r : redis) (key : string) : bool :=
  bool_decide (is_Some (live r key)).

(** Time passing: [d] seconds later. *)
Definition advance (d : Z) (r : redis) : redis :=
  Redis (now r + d) (db r).

(** [GET key]: the payload, or [null]. *)
Definition GET (key : string) (r : redis) : option string :=
  payload <$> live r key.

(** [SET key payload]: stores the payload and discards any expiry. *)
Definition SET (key pl : string) (r : redis) : redis :=
  Redis (now r) (<[key := Entry pl None]> (db r)).

(** [SET key payload EX seconds], for the positive [seconds] that Redis
    accepts: the key expires [seconds] from now. *)
Definition SET_EX (key pl : string) (seconds : Z) (r : redis) : redis :=
  Redis (now r) (<[key := Entry pl (Some (now r + seconds))]> (db r)).

(** [DEL key]. *)
Definition DEL (key : string) (r : redis) : redis :=
  Redis (now r) (delete key (db r)).

End Redis.
Export Redis.

(* ===================================================================== *)
(** * Asynchronous code over the store                                    *)
(* ===================================================================== *)

Module Async.

Section Monad.

(** A promise-returning function over the store: it ends in a value
    or a rejection, and leaves a store behind. *)
Definition M (A : Type) : Type := redis → outcome (exn) A * redis.

Definition ret {A} (a : A) : M A := λ r, (Return a, r).

Definition throw {A} (e : exn) : M A := λ r, (Throw e, r).

Definition bind {A B} (m : M A) (k : A → M B) : M B :=
  λ r, match m r with
       | (Return a, r') => k a r'
       | (Throw e, r') => (Throw e, r')
       end.

(** [try { body } catch (error) { handler }]. *)
Definition try_catch {A} (body : M A) (handler : exn → M A) : M A :=
  λ r, match body r with
       | (Return a, r') => (Return a, r')
       | (Throw e, r') => handler e r'
       end.

(** The client calls, on a store that answers. *)
Definition redis_get (key : string) : M (option string) :=
  λ r, (Return (GET key r), r).

Definition redis_set (key pl : string) : M unit :=
  λ r, (Return tt, SET key pl r).

(** Redis rejects an expiry that is not positive. *)
Definition redis_set_ex (key pl : string) (seconds : Z) : M unit :=
  λ r, if decide (0 < seconds)
       then (Return tt, SET_EX key pl seconds r)
       else (Throw (Error "ERR invalid expire time in 'set' command"), r).

Definition redis_del (key : string) : M unit :=
  λ r, (Return tt, DEL key r).

End Monad.

End Async.
Export Async.

Declare Scope async_scope.
Delimit Scope async_scope with async.
Notation "'let!' x ':=' m 'in' k" := (bind m (λ x, k))
  (at level 10, x binder, m at level 100, k at level 200) : async_scope.

(* ===================================================================== *)
(** * Cache store adapter (lib/cache)                                     *)
(* ===================================================================== *)

Module Cache.

Section Adapter.
Context `{J : JsonRuntime}.
Local Open Scope async_scope.

(** [JSON.parse(payload)], throwing where the runtime does. *)
Definition json_parse (pl : string) : M value :=
  match JSON_parse pl with
  | Some v => ret v
  | None => throw (SyntaxError pl)
  end.

(** After [if (!payload) return null], [payload] is a string. *)
Definition getCachedJson (key : string) : M value :=
  let! payload := redis_get key in
  if falsy_string payload then ret js_null
  else
    try_catch (json_parse (default "" payload))
      (λ error, let! _ := redis_del key in ret js_null).

Definition setCachedJson (key : string) (v : value) (ttlSeconds : Z)
  : M unit :=
  let payload := JSON_stringify v in
  if decide (ttlSeconds > 0)
  then redis_set_ex key payload ttlSeconds
  else redis_set key payload.

(** The store one call of [setCachedJson] is expected to leave. *)
Definition written (r : redis) (key : string) (v : value) (ttlSeconds : Z)
  : redis :=
  Redis (now r)
    (<[key := Entry (JSON_stringify v)
                (if decide (ttlSeconds > 0)
                 then Some (now r + ttlSeconds) else None)]> (db r)).

End Adapter.

End Cache.
Export Cache.

(* ===================================================================== *)
(** * A JSON runtime to run the adapter on                                *)
(* ===================================================================== *)

(** The adapter is stated over any [JsonRuntime]. [RefJson] is one to
    evaluate it with, for JSON texts over null, booleans, integers,
    strings, arrays and objects: a writer that writes as
    [JSON.stringify] does, without white space, and a recursive-descent
    reader that reads back every text of the writer. Numbers with a
    fraction or an exponent and escapes beyond [\u00ff] are outside it:
    the reader rejects them, where [JSON.parse] reads them. *)
Module RefJson.

Inductive json :=
| JNull
| JBool (b : bool)
| JNum (z : Z)
| JStr (s : string)
| JArr (elements : list json)
| JObj (members : list (string * json)).

Definition dquote : ascii := ascii_of_nat 34.
Definition backslash : ascii := ascii_of_nat 92.

Definition is_ws (c : ascii) : bool :=
  let n := nat_of_ascii c in
  (n =? 32)%nat || (n =? 9)%nat || (n =? 10)%nat || (n =? 13)%nat.

Fixpoint skip_ws (s : string) : string :=
  match s with
  | String c r => if is_ws c then skip_ws r else s
  | EmptyString => s
  end.

Definition digit_of (c : ascii) : option Z :=
  let n := nat_of_ascii c in
  if ((48 <=? n)%nat && (n <=? 57)%nat)%bool
  then Some (Z.of_nat n - 48) else None.

Definition hex_of (c : ascii) : option nat :=
  let n := nat_of_ascii c in
  if ((48 <=? n)%nat && (n <=? 57)%nat)%bool then Some (n - 48)%nat
  else if ((97 <=? n)%nat && (n <=? 102)%nat)%bool then Some (n - 87)%nat
  else if ((65 <=? n)%nat && (n <=? 70)%nat)%bool then Some (n - 55)%nat
  else None.

Definition hex_digit (n : nat) : ascii :=
  if (n <? 10)%nat then ascii_of_nat (48 + n) else ascii_of_nat (87 + n).

(** ** Writing *)

Definition escape_char (c : ascii) : string :=
  let n := nat_of_ascii c in
  if (n =? 34)%nat then String backslash (String dquote "")
  else if (n =? 92)%nat then String backslash (String backslash "")
  else if (n =? 8)%nat then String backslash "b"
  else if (n =? 12)%nat then String backslash "f"
  else if (n =? 10)%nat then String backslash "n"
  else if (n =? 13)%nat then String backslash "r"
  else if (n =? 9)%nat then String backslash "t"
  else if (n <? 32)%nat
       then String backslash
              (String "u" (String "0" (String "0"
                (String (hex_digit (n / 16)) (String (hex_digit (n mod 16)) "")))))
  else String c "".

Fixpoint escape (s : string) : string :=
  match s with
  | String c r => escape_char c +:+ escape r
  | EmptyString => ""
  end.

Definition quote (s : string) : string :=
  String dquote (escape s +:+ String dquote "").

(** Decimal digits, no sign for zero, no leading zero. *)
Definition write_Z (z : Z) : string :=
  match z with
  | Z0 => "0"
  | Zpos p => NilEmpty.string_of_uint (Pos.to_uint p)
  | Zneg p => String "-" (NilEmpty.string_of_uint (Pos.to_uint p))
  end.

Fixpoint write (v : json) : string :=
  match v with
  | JNull => "null"
  | JBool true => "true"
  | JBool false => "false"
  | JNum z => write_Z z
  | JStr s => quote s
  | JArr l => "[" +:+ String.concat "," (map write l) +:+ "]"
  | JObj l =>
      "{" +:+ String.concat ","
                (map (λ kv, quote (fst kv) +:+ ":" +:+ write (snd kv)) l)
          +:+ "}"
  end.

(** ** Reading *)

(** The digits at the head of [s], most significant first. *)
Fixpoint read_digits (acc : Z) (s : string) : Z * string :=
  match s with
  | String c r =>
      match digit_of c with
      | Some d => read_digits (10 * acc + d) r
      | None => (acc, s)
      end
  | EmptyString => (acc, s)
  end.

(** [0], or a digit other than [0] followed by digits. *)
Definition read_nat (s : string) : option (Z * string) :=
  match s with
  | String c r =>
      match digit_of c with
      | Some 0 => Some (0, r)
      | Some d => Some (read_digits d r)
      | None => None
      end
  | EmptyString => None
  end.

Definition read_number (s : string) : option (json * string) :=
  match s with
  | String "-" r =>
      match read_nat r with
      | Some (n, r') => Some (JNum (- n), r')
      | None => None
      end
  | _ =>
      match read_nat s with
      | Some (n, r') => Some (JNum n, r')
      | None => None
      end
  end.

(** The characters of a string literal after its opening quote, up to
    the closing one. *)
Fixpoint read_chars (s : string) : option (string * string) :=
  match s with
  | EmptyString => None
  | String c r =>
      if Ascii.eqb c dquote then Some ("", r)
      else if Ascii.eqb c backslash then
        match r with
        | String e r1 =>
            let continue (x : ascii) (rest : option (string * string)) :=
              match rest with
              | Some (t, r') => Some (String x t, r')
              | None => None
              end in
            if Ascii.eqb e dquote then continue dquote (read_chars r1)
            else if Ascii.eqb e backslash then continue backslash (read_chars r1)
            else if Ascii.eqb e "/" then continue "/"%char (read_chars r1)
            else if Ascii.eqb e "b" then continue (ascii_of_nat 8) (read_chars r1)
            else if Ascii.eqb e "f" then continue (ascii_of_nat 12) (read_chars r1)
            else if Ascii.eqb e "n" then continue (ascii_of_nat 10) (read_chars r1)
            else if Ascii.eqb e "r" then continue (ascii_of_nat 13) (read_chars r1)
            else if Ascii.eqb e "t" then continue (ascii_of_nat 9) (read_chars r1)
            else if Ascii.eqb e "u" then
              match r1 with
              | String "0" (String "0" (String h (String l r2))) =>
                  match hex_of h, hex_of l with
                  | Some a, Some b =>
                      continue (ascii_of_nat (16 * a + b)) (read_chars r2)
                  | _, _ => None
                  end
              | _ => None
              end
            else None
        | EmptyString => None
        end
      else if (nat_of_ascii c <? 32)%nat then None
      else
        match read_chars r with
        | Some (t, r') => Some (String c t, r')
        | None => None
        end
  end.

Definition expect (word : string) (v : json) (s : string)
  : option (json * string) :=
  if String.prefix word s
  then Some (v, String.substring (String.length word)
                  (String.length s - String.length word) s)
  else None.

(** A later member replaces an earlier one of the same name, in place. *)
Fixpoint obj_set (k : string) (v : json) (l : list (string * json))
  : list (string * json) :=
  match l with
  | [] => [(k, v)]
  | (k', v') :: l' =>
      if decide (k = k') then (k, v) :: l' else (k', v') :: obj_set k v l'
  end.

(** After white space: the character [c], and what follows it. *)
Definition after (c : ascii) (s : string) : option string :=
  match skip_ws s with
  | String c' r => if Ascii.eqb c' c then Some r else None
  | EmptyString => None
  end.

Section Loops.
Variable read_value : string → option (json * string).

(** The elements of an array after the first bracket, when there is at
    least one. *)
Fixpoint read_elements (n : nat) (acc : list json) (s : string)
  : option (json * string) :=
  match n with
  | O => None
  | S n' =>
      match read_value s with
      | Some (v, r) =>
          match after "," r with
          | Some r' => read_elements n' (acc ++ [v]) r'
          | None =>
              match after "]" r with
              | Some r' => Some (JArr (acc ++ [v]), r')
              | None => None
              end
          end
      | None => None
      end
  end.

(** The members of an object after the first brace, when there is at
    least one. *)
Fixpoint read_members (n : nat) (acc : list (string * json)) (s : string)
  : option (json * string) :=
  match n with
  | O => None
  | S n' =>
      match after dquote s with
      | Some r =>
          match read_chars r with
          | Some (k, r1) =>
              match after ":" r1 with
              | Some r2 =>
                  match read_value r2 with
                  | Some (v, r3) =>
                      match after "," r3 with
                      | Some r' => read_members n' (obj_set k v acc) r'
                      | None =>
                          match after "}" r3 with
                          | Some r' => Some (JObj (obj_set k v acc), r')
                          | None => None
                          end
                      end
                  | None => None
                  end
              | None => None
              end
          | None => None
          end
      | None => None
      end
  end.
End Loops.

Fixpoint read_value (fuel : nat) (s : string) : option (json * string) :=
  match fuel with
  | O => None
  | S fuel' =>
      match skip_ws s with
      | EmptyString => None
      | String c r =>
          if Ascii.eqb c "n" then expect "ull" JNull r
          else if Ascii.eqb c "t" then expect "rue" (JBool true) r
          else if Ascii.eqb c "f" then expect "alse" (JBool false) r
          else if Ascii.eqb c dquote then
            match read_chars r with
            | Some (t, r') => Some (JStr t, r')
            | None => None
            end
          else if Ascii.eqb c "[" then
            match after "]" r with
            | Some r' => Some (JArr [], r')
            | None => read_elements (read_value fuel') fuel' [] r
            end
          else if Ascii.eqb c "{" then
            match after "}" r with
            | Some r' => Some (JObj [], r')
            | None => read_members (read_value fuel') fuel' [] r
            end
          else read_number (String c r)
      end
  end.

(** [JSON.parse]: one value, then nothing but white space. The length
    of the text bounds the nesting and the number of elements. *)
Definition parse (s : string) : option json :=
  match read_value (S (String.length s)) s with
  | Some (v, r) => if decide (skip_ws r = "") then Some v else None
  | None => None
  end.

(** The values [parse] gives back: in an object no name occurs twice. *)
Fixpoint wf (v : json) : bool :=
  match v with
  | JArr l => forallb wf l
  | JObj l => bool_decide (NoDup l.*1) && forallb (λ kv, wf (snd kv)) l
  | _ => true
  end.

(** The number of values in a value, itself included. *)
Fixpoint size (v : json) : nat :=
  match v with
  | JArr l => S (list_sum (map size l))
  | JObj l => S (list_sum (map (λ kv, size (snd kv)) l))
  | _ => 1
  end.

(** ** What reading back is stated with *)

(** What may follow a number: anything but a digit. *)
Definition no_digit (s : string) : Prop :=
  match s with
  | String c _ => digit_of c = None
  | EmptyString => True
  end.

(** The first character of the text of a value: no white space, and
    none of the characters that separate or close. *)
Definition opens (c : ascii) : Prop :=
  is_ws c = false ∧ Ascii.eqb c "]" = false ∧ Ascii.eqb c "}" = false
  ∧ Ascii.eqb c "," = false.

(** A reader of values that reads back what [write] wrote. *)
Definition reads (p : string → option (json * string)) (v : json) : Prop :=
  ∀ rest, no_digit rest → p (write v +:+ rest) = Some (v, rest).

(** One member of an object, as [write] writes it. *)
Definition write_member (kv : string * json) : string :=
  quote (fst kv) +:+ ":" +:+ write (snd kv).

#[export] Instance runtime : JsonRuntime := {|
  value := json;
  js_null := JNull;
  JSON_parse := parse;
  JSON_stringify := write;
|}.

End RefJson.

(* ===================================================================== *)
(** * Configuration (config/index)                                        *)
(* ===================================================================== *)

Module Config.

(** What [safeParse] reports for a field it rejects. *)
Record ZodIssue := {
  path : list string;
  message : string;
}.

Inductive SafeParseResult (Env : Type) :=
| SafeParseSuccess (data : Env)
| SafeParseFailure (issues : list ZodIssue).
Arguments SafeParseSuccess {Env} data.
Arguments SafeParseFailure {Env} issues.

(** [process.env]. *)
Abbreviation environment := (gmap string string).

Section Loader.
(** The schema: the type it infers and its [safeParse]. *)
Context {Env : Type}.
Variable envSchema_safeParse : environment → SafeParseResult Env.

(** The process: its environment and the module variable
    [cachedConfig]. *)
Record process := Process {
  env : environment;
  cachedConfig : option Env;
}.

Definition invalid_message (issues : list ZodIssue) : string :=
  "ContentService configuration invalid: "
  +:+ String.concat "; "
        (map (λ issue, String.concat "." (path issue) +:+ ": " +:+ message issue)
           issues).

Definition loadConfig (p : process) : outcome exn Env * process :=
  match cachedConfig p with
  | Some config => (Return config, p)
  | None =>
      match envSchema_safeParse (env p) with
      | SafeParseFailure issues => (Throw (Error (invalid_message issues)), p)
      | SafeParseSuccess data => (Return data, Process (env p) (Some data))
      end
  end.

Definition resetConfigCache (p : process) : process :=
  Process (env p) None.

(** The environment changing under the process. *)
Definition setenv (e : environment) (p : process) : process :=
  Process e (cachedConfig p).

(** Further calls of [loadConfig], one per element of [envs], the
    environment set to that element before the call: the results in
    order, and the process left behind. *)
Fixpoint reload (envs : list environment) (p : process)
  : list (outcome exn Env) * process :=
  match envs with
  | [] => ([], p)
  | e :: envs' =>
      let '(o, p1) := loadConfig (setenv e p) in
      let '(os, p2) := reload envs' p1 in
      (o :: os, p2)
  end.

End Loader.

Arguments process : clear implicits.

(** A schema to run [loadConfig] on: the two required fields of
    [envSchema] (their presence; a URL is not inspected) and two fields
    with a default. *)
Module RefSchema.

Record Env := {
  NODE_ENV : string;
  HTTP_HOST : string;
  DATABASE_URL : string;
  REDIS_URL : string;
}.

Definition required (name : string) (e : environment) : list ZodIssue :=
  match e !! name with
  | Some _ => []
  | None => [ {| path := [name]; message := "Required" |} ]
  end.

Definition node_env (e : environment) : list ZodIssue :=
  match e !! "NODE_ENV" with
  | None => []
  | Some x =>
      if decide (x ∈ ["development"; "test"; "production"]) then []
      else [ {| path := ["NODE_ENV"]; message := "Invalid enum value" |} ]
  end.

Definition safeParse (e : environment) : SafeParseResult Env :=
  match (node_env e ++ required "DATABASE_URL" e ++ required "REDIS_URL" e)%list with
  | [] =>
      SafeParseSuccess
        {| NODE_ENV := default "development" (e !! "NODE_ENV");
           HTTP_HOST := default "0.0.0.0" (e !! "HTTP_HOST");
           DATABASE_URL := default "" (e !! "DATABASE_URL");
           REDIS_URL := default "" (e !! "REDIS_URL") |}
  | issues => SafeParseFailure issues
  end.

End RefSchema.

End Config.

(* ===================================================================== *)
(** * Trending aggregator (services/trending-service)                     *)
(* ===================================================================== *)

Module Trending.

Local Open Scope Qc_scope.

(** Modelled from the spec: the schema of an engagement metrics event
    (schemas/events) is missing. An event carries a content id and
    signal deltas: views, likes, completions and, when the viewer
    rated, a rating value. *)
Record MetricsEvent := {
  contentId : string;
  views : Z;
  likes : Z;
  completions : Z;
  rating : option Qc;
}.

(** Modelled from the spec: the weights of the signals are constants
    of the missing service; the properties hold for any choice. *)
Record Weights := {
  w_views : Qc;
  w_likes : Qc;
  w_completions : Qc;
  w_rating : Qc;
}.

(** The ranked set under the trending key (content id to score) and
    the hash under the ratings key (content id to sum and count). *)
Record store := Store {
  ranked : gmap string Qc;
  ratings : gmap string (Qc * N);
}.

(** [ZINCRBY key delta member]: a member that is not in the set enters
    it with the delta as its score. *)
Definition ZINCRBY (delta : Qc) (member : string) (z : gmap string Qc)
  : gmap string Qc :=
  <[member := default 0 (z !! member) + delta]> z.

(** The sum and the count of a rating aggregate, incremented. *)
Definition rate (r : Qc) (member : string) (h : gmap string (Qc * N))
  : gmap string (Qc * N) :=
  let '(sum, count) := default (0, 0%N) (h !! member) in
  <[member := (sum + r, (count + 1)%N)]> h.

Section Aggregator.
Variable w : Weights.

(** Modelled from the spec: the increment of a score is a weighted
    sum of the deltas of the event; a rating nudges the score too. *)
Definition increment (e : MetricsEvent) : Qc :=
  w_views w * Qc_of_Z (views e)
  + w_likes w * Qc_of_Z (likes e)
  + w_completions w * Qc_of_Z (completions e)
  + from_option (λ r, w_rating w * r) 0 (rating e).

(** Modelled from the spec: one event is a delta applied to the
    score the store holds, by the store's own increment; a rating
    also updates the rating aggregate. *)
Definition applyEvent (st : store) (e : MetricsEvent) : store :=
  Store (ZINCRBY (increment e) (contentId e) (ranked st))
        (from_option (λ r, rate r (contentId e) (ratings st))
           (ratings st) (rating e)).

(** Modelled from the spec: [applyMetrics(events)] applies the
    events one after the other. *)
Definition applyMetrics (events : list MetricsEvent) (st : store) : store :=
  foldl applyEvent st events.

End Aggregator.

(** Modelled from the spec: point look-ups; an absent entry is score
    0, rating aggregate (0, 0). *)
Definition scoreFor (st : store) (id : string) : Qc :=
  default 0 (ranked st !! id).

Definition ratingFor (st : store) (id : string) : Qc * N :=
  default (0, 0%N) (ratings st !! id).

(** Content ids compare as strings do: character by character, by
    character code, a proper prefix first. *)
Definition codes (id : string) : list nat :=
  nat_of_ascii <$> list_ascii_of_string id.

Definition id_lt (a b : string) : Prop := lexico (codes a) (codes b).

(** Modelled from the spec: the order of the trending view: higher
    score first, equal scores by ascending content id. *)
Definition ranks_before (x y : string * Qc) : Prop :=
  Qclt y.2 x.2 ∨ (x.2 = y.2 ∧ (x.1 = y.1 ∨ id_lt x.1 y.1)).

#[global] Instance id_lt_dec : RelDecision id_lt.
Proof.
  intros a b. unfold id_lt.
  destruct (trichotomyT lexico (codes a) (codes b)) as [[Hlt|Heq]|Hgt].
  - left. exact Hlt.
  - right. rewrite Heq. apply irreflexivity, _.
  - right. intros Hlt. exact (irreflexivity lexico _ (transitivity Hlt Hgt)).
Defined.

#[global] Instance ranks_before_dec : RelDecision ranks_before.
Proof. intros x y. unfold ranks_before. apply _. Defined.

(** The ranked set, in the order of the trending view. *)
Definition view (st : store) : list (string * Qc) :=
  merge_sort ranks_before (map_to_list (ranked st)).

(** Modelled from the spec: [topTrending(limit)]: the content ids of
    the ranked set in the order of the view, the first [limit] of
    them. *)
Definition topTrending (limit : nat) (st : store) : list string :=
  take limit (view st).*1.

End Trending.

(* ===================================================================== *)
(** * Viewer catalog: data model, quality monitor, orchestrator           *)
(* ===================================================================== *)

Module Catalog.

(** Modelled from the spec: schemas/viewer-catalog is missing. A feed
    item is the projection of one playable unit; [publishedAt] is
    [None] when the timestamp is not well-formed. *)
Record FeedItem := {
  contentId : string;
  itemSeriesId : option string;
  title : string;
  publishedAt : option Z;
  playable : bool;
  streamingAssetId : option string;
  trendingScore : option Qc;
}.

Record Season := {
  seasonNumber : Z;
  episodes : list FeedItem;
}.

Record Series := {
  slug : string;
  id : string;
  seriesTitle : string;
}.

(** What the orchestrator answers, each with the [fromCache] flag. *)
Record FeedQuery := {
  limit : N;
  cursor : option string;
}.

Record FeedResult := {
  items : list FeedItem;
  nextCursor : option string;
  feedFromCache : bool;
}.

Record SeriesDetailResult := {
  series : Series;
  seasons : list Season;
  standaloneEpisodes : list FeedItem;
  detailFromCache : bool;
}.

Record RelatedSeriesResult := {
  relatedItems : list Series;
  relatedFromCache : bool;
}.

(** ** Data quality monitor *)

(** Modelled from the spec: services/data-quality-monitor is missing.
    What the checks are made against: the series that exist, the time
    of the check and how far ahead of it a timestamp may lie. *)
Record Reference := {
  knownSeries : gset string;
  checkedAt : Z;
  futureTolerance : Z;
}.

Definition issueOn (k : IssueKind) (item : FeedItem) : QualityIssue :=
  {| kind := k;
     attributes := {| episodeId := Some (contentId item);
                      seriesId := itemSeriesId item |} |}.

Definition seriesResolves (ref : Reference) (item : FeedItem) : bool :=
  match itemSeriesId item with
  | Some sid => bool_decide (sid ∈ knownSeries ref)
  | None => true
  end.

Definition assetFinalized (item : FeedItem) : bool :=
  negb (playable item) || bool_decide (is_Some (streamingAssetId item)).

Definition timestampSound (ref : Reference) (item : FeedItem) : bool :=
  match publishedAt item with
  | Some t => bool_decide (t ≤ checkedAt ref + futureTolerance ref)
  | None => false
  end.

(** Modelled from the spec: the checks on one item, in the order the
    design lists them; the first that fails is the issue. *)
Definition checkItem (ref : Reference) (item : FeedItem) : option QualityIssue :=
  if negb (seriesResolves ref item)
  then Some (issueOn FeedItemReferencesNonexistentSeries item)
  else if negb (assetFinalized item)
  then Some (issueOn EpisodeMissingFinalizedAsset item)
  else if negb (timestampSound ref item)
  then Some (issueOn TimestampMalformedOrFarFuture item)
  else None.

(** Modelled from the spec: fail-fast: the issue of the first item
    that has one. *)
Fixpoint firstIssue (ref : Reference) (l : list FeedItem) : option QualityIssue :=
  match l with
  | [] => None
  | item :: l' =>
      match checkItem ref item with
      | Some issue => Some issue
      | None => firstIssue ref l'
      end
  end.

Definition validateItems (ref : Reference) (l : list FeedItem)
  : outcome exn unit :=
  match firstIssue ref l with
  | Some issue => Throw (CatalogConsistencyError issue)
  | None => Return tt
  end.

Definition allEpisodes (d : SeriesDetailResult) : list FeedItem :=
  (concat (episodes <$> seasons d) ++ standaloneEpisodes d)%list.

(** Modelled from the spec: a series with no episode in any season or
    in the standalone list is flagged; then its episodes are checked. *)
Definition validateSeriesDetail (ref : Reference) (d : SeriesDetailResult)
  : outcome exn unit :=
  match allEpisodes d with
  | [] =>
      Throw (CatalogConsistencyError
               {| kind := SeriesHasZeroPlayableEpisodes;
                  attributes := {| episodeId := None;
                                   seriesId := Some (id (series d)) |} |})
  | l => validateItems ref l
  end.

(** ** Orchestrator *)

Section Orchestrator.
Variable ref : Reference.

(** Modelled from the spec: services/viewer-catalog-service is
    missing. What a request finds, in the cache or in the system of
    record: the composed feed, the series a slug resolves to (none
    when it does not resolve), the series related to it. *)
Variable composeFeed : FeedQuery → FeedResult.
Variable resolveSeries : string → option SeriesDetailResult.
Variable relatedTo : Series → list Series.

(** Modelled from the spec: hit or miss, the payload is validated
    before it is returned. *)
Definition getFeed (query : FeedQuery) : outcome exn FeedResult :=
  let result := composeFeed query in
  match validateItems ref (items result) with
  | Throw e => Throw e
  | Return _ => Return result
  end.

(** Modelled from the spec: a slug that does not resolve is the
    not-found sentinel, [null], and no error. *)
Definition getSeriesDetail (slug : string)
  : outcome exn (option SeriesDetailResult) :=
  match resolveSeries slug with
  | None => Return None
  | Some d =>
      match validateSeriesDetail ref d with
      | Throw e => Throw e
      | Return _ => Return (Some d)
      end
  end.

(** Modelled from the spec: the related series, capped at the limit
    of the caller. *)
Definition getRelatedSeries (slug : string) (limit : N)
  : outcome exn (option RelatedSeriesResult) :=
  match resolveSeries slug with
  | None => Return None
  | Some d =>
      Return (Some {| relatedItems := take (N.to_nat limit) (relatedTo (series d));
                      relatedFromCache := detailFromCache d |})
  end.

End Orchestrator.

End Catalog.

(* ===================================================================== *)
(** * The HTTP layer, as far as the routes use it                         *)
(* ===================================================================== *)

Module Fastify.

(** Modelled from the spec: the declarations of a category and of the
    result of registering an asset (services/catalog-service) are
    missing; the routes pass them through. *)
Record Category := {
  categoryId : string;
  categoryName : string;
}.

Record AssetFields := {
  assetStatus : string;
  sourceUploadId : option string;
  streamingAssetId : option string;
  manifestUrl : option string;
  defaultThumbnailUrl : option string;
  variants : list string;
}.

Record AssetInput := {
  episodeId : string;
  fields : AssetFields;
}.

Record AssetResult := {
  assetEpisodeId : string;
  assetState : string;
}.

(** What a route sends. *)
Inductive body :=
| Message (message : string)
| QualityFailure (message : string) (issue : IssueKind)
| FeedBody (items : list Catalog.FeedItem) (nextCursor : option string)
| SeriesBody (series : Catalog.Series) (seasons : list Catalog.Season)
    (standaloneEpisodes : list Catalog.FeedItem)
| RelatedBody (items : list Catalog.Series)
| CategoriesBody (categories : list Category) (nextCursor : option string)
| CategoryBody (category : Category)
| AssetBody (result : AssetResult)
| Accepted
| HttpErrorBody (statusCode : Z) (message : string)
| UnhandledErrorBody (error : exn).

Record reply := Reply {
  status : Z;
  headers : list (string * string);
  sent : body;
}.

(** One call of [request.log.error]: the fields of the object logged
    and the message. *)
Record logEntry := {
  err : exn;
  logContentId : option string;
  logIssue : option IssueKind;
  logEpisodeId : option string;
  msg : string;
}.

(** A handler ends in a reply or in an exception, and has logged. *)
Definition handled : Type := outcome exn reply * list logEntry.

(** [fastify.httpErrors] of the sensible plugin. *)
Definition notFound (message : string) : exn := HttpError 404 message.
Definition internalServerError (message : string) : exn := HttpError 500 message.

(** What the client receives. An exception that leaves the handler is
    answered by the framework: with the status code the error carries,
    with 500 when it carries none. *)
Definition respond (h : handled) : reply :=
  match fst h with
  | Return r => r
  | Throw (HttpError code m) => Reply code [] (HttpErrorBody code m)
  | Throw e => Reply 500 [] (UnhandledErrorBody e)
  end.

End Fastify.

(* ===================================================================== *)
(** * Viewer catalog routes (routes/viewer/catalog)                       *)
(* ===================================================================== *)

Module ViewerRoutes.
Import Fastify.

(** The fields of the configuration the routes read. *)
Record RouteConfig := {
  FEED_CACHE_TTL_SECONDS : N;
  SERIES_CACHE_TTL_SECONDS : N;
  RELATED_CACHE_TTL_SECONDS : N;
}.

(** The methods of [ViewerCatalogService] the routes call. *)
Record ViewerCatalogService := {
  getFeed : Catalog.FeedQuery → outcome exn Catalog.FeedResult;
  getSeriesDetail : string → outcome exn (option Catalog.SeriesDetailResult);
  getRelatedSeries : string → N → outcome exn (option Catalog.RelatedSeriesResult);
  listCategories :
    Catalog.FeedQuery → outcome exn (list Category * option string);
}.

Definition cacheControl (maxAge : N) : string * string :=
  ("cache-control", "public, max-age=" +:+ pretty maxAge).

Definition xCache (fromCache : bool) : string * string :=
  ("x-cache", if fromCache then "hit" else "miss").

(** The [catch] block the three routes share, up to the log message:
    a [CatalogConsistencyError] is logged and answered with 500 and the
    kind of its issue, anything else is thrown again. *)
Definition catchQualityFailure (logMessage : string) (error : exn) : handled :=
  match error with
  | CatalogConsistencyError issue =>
      (Return (Reply 500 []
                 (QualityFailure "Catalog data quality issue" (kind issue))),
       [ {| err := error;
            logContentId := Js.episodeId (attributes issue);
            logIssue := Some (kind issue);
            logEpisodeId := None;
            msg := logMessage |} ])
  | _ => (Throw error, [])
  end.

Section Routes.
Variable config : RouteConfig.
Variable viewerCatalog : ViewerCatalogService.

(** GET /feed *)
Definition feedHandler (query : Catalog.FeedQuery) : handled :=
  match getFeed viewerCatalog query with
  | Return result =>
      (Return (Reply 200
                 [cacheControl (FEED_CACHE_TTL_SECONDS config);
                  xCache (Catalog.feedFromCache result)]
                 (FeedBody (Catalog.items result) (Catalog.nextCursor result))),
       [])
  | Throw error =>
      catchQualityFailure "Catalog data quality failure on viewer feed" error
  end.

(** GET /series/:slug *)
Definition seriesDetailHandler (slug : string) : handled :=
  match getSeriesDetail viewerCatalog slug with
  | Return result =>
      match result with
      | None => (Return (Reply 404 [] (Message "Series not found")), [])
      | Some result =>
          (Return (Reply 200
                     [cacheControl (SERIES_CACHE_TTL_SECONDS config);
                      xCache (Catalog.detailFromCache result)]
                     (SeriesBody (Catalog.series result) (Catalog.seasons result)
                        (Catalog.standaloneEpisodes result))),
           [])
      end
  | Throw error =>
      catchQualityFailure "Catalog data quality failure on series detail" error
  end.

(** GET /series/:slug/related *)
Definition relatedSeriesHandler (slug : string) (limit : N) : handled :=
  match getRelatedSeries viewerCatalog slug limit with
  | Return result =>
      match result with
      | None => (Return (Reply 404 [] (Message "Series not found")), [])
      | Some result =>
          (Return (Reply 200
                     [cacheControl (RELATED_CACHE_TTL_SECONDS config);
                      xCache (Catalog.relatedFromCache result)]
                     (RelatedBody (Catalog.relatedItems result))),
           [])
      end
  | Throw error =>
      catchQualityFailure "Catalog data quality failure on related series" error
  end.

(** GET /categories: no [try]; an exception leaves the handler. *)
Definition categoriesHandler (query : Catalog.FeedQuery) : handled :=
  match listCategories viewerCatalog query with
  | Return result =>
      (Return (Reply 200 [cacheControl (FEED_CACHE_TTL_SECONDS config)]
                 (CategoriesBody (fst result) (snd result))),
       [])
  | Throw error => (Throw error, [])
  end.

End Routes.

End ViewerRoutes.

(* ===================================================================== *)
(** * Internal routes (routes/internal)                                   *)
(* ===================================================================== *)

Module InternalRoutes.
Import Fastify.

(** The methods of [CatalogService] the routes call. *)
Record CatalogService := {
  getCategoryById : string → outcome exn Category;
  registerEpisodeAsset : string → AssetInput → outcome exn AssetResult;
}.

Definition systemActorId : string := "SYSTEM".

Definition logged (error : exn) (episode : option string) (message : string)
  : logEntry :=
  {| err := error; logContentId := None; logIssue := None;
     logEpisodeId := episode; msg := message |}.

Section Routes.
Variable catalog : CatalogService.

(** GET /catalog/categories/:id *)
Definition categoryHandler (id : string) : handled :=
  match getCategoryById catalog id with
  | Return category => (Return (Reply 200 [] (CategoryBody category)), [])
  | Throw error =>
      let otherwise :=
        (Throw (internalServerError "Unable to fetch category"),
         [logged error None "Failed to fetch category"]) in
      match error with
      | CatalogServiceError code _ =>
          if decide (code = "NOT_FOUND")
          then (Throw (notFound "Category not found"), [])
          else otherwise
      | _ => otherwise
      end
  end.

(** The [catch] block the two routes that register an asset share,
    up to the messages. *)
Definition catchRegisterFailure (episode : string)
    (logMessage replyMessage : string) (error : exn) : handled :=
  let otherwise :=
    (Return (Reply 500 [] (Message replyMessage)),
     [logged error (Some episode) logMessage]) in
  match error with
  | CatalogServiceError code message =>
      if decide (code = "NOT_FOUND")
      then (Return (Reply 404 [] (Message message)), [])
      else if decide (code = "FAILED_PRECONDITION")
      then (Return (Reply 412 [] (Message message)), [])
      else otherwise
  | _ => otherwise
  end.

(** POST /catalog/episodes/:id/assets *)
Definition registerAssetHandler (id : string) (body : AssetFields) : handled :=
  match registerEpisodeAsset catalog systemActorId
          {| episodeId := id; fields := body |} with
  | Return result => (Return (Reply 200 [] (AssetBody result)), [])
  | Throw error =>
      catchRegisterFailure id
        "Failed to register episode asset via internal route"
        "Unable to register episode asset" error
  end.

(** POST /events/media-processed *)
Definition mediaProcessedHandler (body : AssetInput) : handled :=
  match registerEpisodeAsset catalog systemActorId body with
  | Return _ => (Return (Reply 202 [] Accepted), [])
  | Throw error =>
      catchRegisterFailure (episodeId body)
        "Failed to process media event"
        "Unable to apply media processed event" error
  end.

End Routes.

End InternalRoutes.

(* ===================================================================== *)
(** * The viewer routes over the orchestrator                             *)
(* ===================================================================== *)

Module Wiring.

(** The service the viewer routes are registered with: the
    orchestrator over what the requests find. Categories are listed
    as found. *)
Definition viewerCatalog
    (ref : Catalog.Reference)
    (composeFeed : Catalog.FeedQuery → Catalog.FeedResult)
    (resolveSeries : string → option Catalog.SeriesDetailResult)
    (relatedTo : Catalog.Series → list Catalog.Series)
    (categories : Catalog.FeedQuery → list Fastify.Category * option string)
  : ViewerRoutes.ViewerCatalogService :=
  {| ViewerRoutes.getFeed := Catalog.getFeed ref composeFeed;
     ViewerRoutes.getSeriesDetail := Catalog.getSeriesDetail ref resolveSeries;
     ViewerRoutes.getRelatedSeries := Catalog.getRelatedSeries resolveSeries relatedTo;
     ViewerRoutes.listCategories := λ query, Return (categories query) |}.

(** A small catalog to run the routes on: one series, [show-a], with
    one episode; a feed of that episode and of an episode that refers
    to a series that does not exist. *)
Definition episode1 : Catalog.FeedItem :=
  {| Catalog.contentId := "ep-1"; Catalog.itemSeriesId := Some "series-a";
     Catalog.title := "Pilot"; Catalog.publishedAt := Some 1700000000;
     Catalog.playable := true; Catalog.streamingAssetId := Some "asset-1";
     Catalog.trendingScore := None |}.

Definition orphan : Catalog.FeedItem :=
  {| Catalog.contentId := "ep-9"; Catalog.itemSeriesId := Some "series-gone";
     Catalog.title := "Orphan"; Catalog.publishedAt := Some 1700000500;
     Catalog.playable := true; Catalog.streamingAssetId := None;
     Catalog.trendingScore := None |}.

Definition showA : Catalog.Series :=
  {| Catalog.slug := "show-a"; Catalog.id := "series-a";
     Catalog.seriesTitle := "Show A" |}.

Definition reference : Catalog.Reference :=
  {| Catalog.knownSeries := {["series-a"]};
     Catalog.checkedAt := 1700001000;
     Catalog.futureTolerance := 86400 |}.

Definition feed (query : Catalog.FeedQuery) : Catalog.FeedResult :=
  {| Catalog.items := [episode1; orphan; episode1];
     Catalog.nextCursor := None;
     Catalog.feedFromCache := false |}.

Definition resolve (slug : string) : option Catalog.SeriesDetailResult :=
  if decide (slug = "show-a")
  then Some {| Catalog.series := showA;
               Catalog.seasons :=
                 [ {| Catalog.seasonNumber := 1; Catalog.episodes := [episode1] |} ];
               Catalog.standaloneEpisodes := [];
               Catalog.detailFromCache := false |}
  else None.

Definition smallCatalog : ViewerRoutes.ViewerCatalogService :=
  viewerCatalog reference feed resolve (λ _, []) (λ _, ([], None)).

Definition ttls : ViewerRoutes.RouteConfig :=
  {| ViewerRoutes.FEED_CACHE_TTL_SECONDS := 60;
     ViewerRoutes.SERIES_CACHE_TTL_SECONDS := 120;
     ViewerRoutes.RELATED_CACHE_TTL_SECONDS := 180 |}.

(** A system of record in which nothing is found except the episode
    [ep-draft], which is not ready for an asset. *)
Definition emptyCatalog : InternalRoutes.CatalogService :=
  {| InternalRoutes.getCategoryById :=
       λ id, Throw (CatalogServiceError "NOT_FOUND" "Category not found");
     InternalRoutes.registerEpisodeAsset :=
       λ actor input,
         if decide (Fastify.episodeId input = "ep-draft")
         then Throw (CatalogServiceError "FAILED_PRECONDITION"
                       "Episode is not awaiting an asset")
         else Throw (CatalogServiceError "NOT_FOUND" "Episode not found") |}.

(** A system of record whose category look-up fails on a
    precondition. *)
Definition lockedCatalog : InternalRoutes.CatalogService :=
  {| InternalRoutes.getCategoryById :=
       λ id, Throw (CatalogServiceError "FAILED_PRECONDITION" "Category is locked");
     InternalRoutes.registerEpisodeAsset :=
       λ actor input, Throw (CatalogServiceError "NOT_FOUND" "Episode not found") |}.

Definition noFields : Fastify.AssetFields :=
  {| Fastify.assetStatus := "READY"; Fastify.sourceUploadId := None;
     Fastify.streamingAssetId := None; Fastify.manifestUrl := None;
     Fastify.defaultThumbnailUrl := None; Fastify.variants := [] |}.

End Wiring.

(* ===================================================================== *)
(** * Admin routes: the role check (routes/admin/index)                   *)
(* ===================================================================== *)

Module AdminRoutes.

(** [request.headers[name]]: a string, an array of strings, or nothing.
    The characters of a header value are the bytes received. *)
Inductive HeaderValue :=
| One (s : string)
| Many (l : list string).

Abbreviation headers := (gmap string HeaderValue).

(** The request as the hook reads and changes it: its headers and the
    bindings of its logger. *)
Record request := Request {
  reqHeaders : headers;
  logBindings : list (string * string);
}.

(** A character of [[,\s]]: the comma and, among the characters of a
    header value, the white space of a regular expression: tab, line
    feed, vertical tab, form feed, carriage return, space and the
    no-break space. *)
Definition separator (c : ascii) : bool :=
  let n := nat_of_ascii c in
  (n =? 44)%nat || (n =? 9)%nat || (n =? 10)%nat || (n =? 11)%nat
  || (n =? 12)%nat || (n =? 13)%nat || (n =? 32)%nat || (n =? 160)%nat.

(** [split(/[,\s]+/)]: the pieces between the runs of separators. A run
    at the start or at the end leaves an empty piece there; a text
    without separator is one piece. [piece] is the piece being read,
    [in_run] says that the last character was a separator. *)
Fixpoint split_runs (l piece : list ascii) (in_run : bool) : list (list ascii) :=
  match l with
  | [] => [piece]
  | c :: r =>
      if separator c
      then (if in_run then split_runs r [] true else piece :: split_runs r [] true)
      else split_runs r (piece ++ [c]) false
  end.

Definition split_separators (s : string) : list string :=
  string_of_list_ascii <$> split_runs (list_ascii_of_string s) [] false.

(** [.filter(Boolean)] on strings: the empty string is the falsy one. *)
Definition filterBoolean (l : list string) : list string :=
  filter (λ x, x ≠ "") l.

Definition parseRoles (s : string) : list string :=
  filterBoolean (split_separators s).

(** [toLowerCase] on the characters of a header value: the letters A to
    Z and the accented capitals (codes 192 to 222, the multiplication
    sign apart) move 32 up. *)
Definition lower_char (c : ascii) : ascii :=
  let n := nat_of_ascii c in
  if ((65 <=? n)%nat && (n <=? 90)%nat)
     || ((192 <=? n)%nat && (n <=? 222)%nat && negb (n =? 215)%nat)
  then ascii_of_nat (n + 32) else c.

Fixpoint toLowerCase (s : string) : string :=
  match s with
  | String c r => String (lower_char c) (toLowerCase r)
  | EmptyString => EmptyString
  end.

(** [roles.some((role) => role.toLowerCase() === "admin")]. *)
Definition isAdmin (roles : list string) : bool :=
  existsb (λ role, bool_decide (toLowerCase role = "admin")) roles.

(** ** What the role check is stated with *)

Definition chars (s : string) : list ascii := list_ascii_of_string s.

(** A text stands between separators, or at an end of the header. *)
Definition ends_in_separator (s : string) : Prop :=
  ∃ s' c, s = s' +:+ String c "" ∧ separator c = true.

Definition starts_with_separator (s : string) : Prop :=
  ∃ c s', s = String c s' ∧ separator c = true.

Definition delimited (pre post : string) : Prop :=
  (pre = "" ∨ ends_in_separator pre) ∧ (post = "" ∨ starts_with_separator post).

Definition nonsep (c : ascii) : Prop := separator c = false.

(** Where a piece lies in the text still to be read: it continues the
    piece being read, or it stands further on, after a separator. *)
Definition at_start (l piece t : list ascii) : Prop :=
  ∃ u post, t = piece ++ u ∧ l = u ++ post
            ∧ (post = [] ∨ ∃ c post', post = c :: post' ∧ separator c = true).

Definition inside (l t : list ascii) : Prop :=
  ∃ pre post, l = pre ++ t ++ post
              ∧ (∃ pre' c, pre = pre' ++ [c] ∧ separator c = true)
              ∧ (post = [] ∨ ∃ c post', post = c :: post' ∧ separator c = true).

(** [fastify.httpErrors] of the sensible plugin. *)
Definition forbidden (message : string) : exn := HttpError 403 message.
Definition badRequest (message : string) : exn := HttpError 400 message.

(** [typeof h[name] === "string" ? h[name] : undefined]. *)
Definition stringHeader (h : headers) (name : string) : option string :=
  match h !! name with
  | Some (One s) => Some s
  | _ => None
  end.

(** [h["x-admin-role"] ?? h["x-user-roles"]]. *)
Definition rolesHeader (h : headers) : option HeaderValue :=
  match h !! "x-admin-role" with
  | Some v => Some v
  | None => h !! "x-user-roles"
  end.

Definition rolesOf (h : headers) : list string :=
  match rolesHeader h with
  | Some (One s) => parseRoles s
  | _ => []
  end.

Definition adminIdOf (h : headers) : option string :=
  match stringHeader h "x-admin-id" with
  | Some s => Some s
  | None => stringHeader h "x-user-id"
  end.

Definition childBindings (adminId : string) : list (string * string) :=
  [("adminId", adminId); ("admin", "true"); ("service", "content")].

Section Hook.
(** The decorator that authenticates the calling service; it returns
    or throws. *)
Variable verifyServiceRequest : request → outcome exn unit.

(** The [preHandler] hook: the request it leaves to the routes, or the
    exception it throws. *)
Definition preHandler (req : request) : outcome exn request :=
  match verifyServiceRequest req with
  | Throw e => Throw e
  | Return _ =>
      let h := reqHeaders req in
      if negb (isAdmin (rolesOf h))
      then Throw (forbidden "Admin role required")
      else
        let adminId := adminIdOf h in
        if falsy_string adminId
        then Throw (badRequest "Missing admin identifier (x-admin-id or x-user-id)")
        else
          let id := default "" adminId in
          Return (Request (<["x-admin-id" := One id]> h)
                    (logBindings req ++ childBindings id))
  end.

End Hook.

(** Requests to run the hook on. The first names the admin role among
    [x-user-roles] and the admin in [x-user-id], its [x-admin-id] is an
    array; the second has an empty [x-admin-role] beside the same
    [x-user-roles]. *)
Definition viaUserHeaders : request :=
  Request (<["x-user-roles" := One "viewer, Admin"]>
             (<["x-user-id" := One "u-42"]>
                (<["x-admin-id" := Many ["a"; "b"]]> ∅)))
          [].

Definition emptyAdminRole : request :=
  Request (<["x-admin-role" := One ""]>
             (<["x-user-roles" := One "admin"]>
                (<["x-user-id" := One "u-42"]> ∅)))
          [].

Definition verified : request → outcome exn unit := λ _, Return tt.

End AdminRoutes.

(* ===================================================================== *)
(** * Stub video metadata (routes/internal, the stub)                     *)
(* ===================================================================== *)

Module StubRoutes.

Record Thumbnail := {
  url : string;
  width : Z;
  height : Z;
}.

Record Stats := {
  views : Z;
  likes : Z;
  comments : Z;
}.

Record ContentResponse := {
  id : string;
  title : string;
  description : string;
  durationSeconds : Z;
  ownerId : string;
  publishedAt : string;
  visibility : string;
  tags : list string;
  thumbnails : list Thumbnail;
  stats : Stats;
}.

(** [s.replace(/\/$/, "")]: a slash that ends the text is removed. *)
Fixpoint dropTrailingSlash (s : string) : string :=
  match s with
  | EmptyString => EmptyString
  | String c r =>
      match r with
      | EmptyString => if decide (c = "/"%char) then EmptyString else s
      | String _ _ => String c (dropTrailingSlash r)
      end
  end.

Fixpoint endsWithSlash (s : string) : bool :=
  match s with
  | EmptyString => false
  | String c r =>
      match r with
      | EmptyString => bool_decide (c = "/"%char)
      | String _ _ => endsWithSlash r
      end
  end.

(** [nowIso] is [new Date().toISOString()] at the time of the call. *)
Definition buildStubResponse (nowIso : string)
    (id cdnBaseUrl defaultOwnerId : string) : ContentResponse :=
  let thumbnailBase := dropTrailingSlash cdnBaseUrl +:+ "/thumbnails/" +:+ id in
  {| id := id;
     title := "PocketLOL Video " +:+ String.substring 0 8 id;
     description := "Stub video metadata returned by ContentService";
     durationSeconds := 900;
     ownerId := defaultOwnerId;
     publishedAt := nowIso;
     visibility := "public";
     tags := ["stub"; "demo"];
     thumbnails :=
       [ {| url := thumbnailBase +:+ "/default.jpg"; width := 1280; height := 720 |};
         {| url := thumbnailBase +:+ "/hq.jpg"; width := 1920; height := 1080 |} ];
     stats := {| views := 4250; likes := 250; comments := 32 |} |}.

(** The fields of the configuration the stub route reads. *)
Record StubConfig := {
  CDN_BASE_URL : string;
  DEFAULT_OWNER_ID : string;
}.

(** GET /videos/:id *)
Definition videoHandler (config : StubConfig) (nowIso : string) (id : string)
  : ContentResponse :=
  buildStubResponse nowIso id (CDN_BASE_URL config) (DEFAULT_OWNER_ID config).

End StubRoutes.

(* ===================================================================== *)
(** * Viewer catalog routes without the monitor (routes/viewer/catalog) *)
(* ===================================================================== *)

Module ViewerRoutesPlain.
Import Fastify.

Section Routes.
Variable config : ViewerRoutes.RouteConfig.
Variable viewerCatalog : ViewerRoutes.ViewerCatalogService.

(** GET /feed: no [try]; an exception leaves the handler. *)
Definition feedHandler (query : Catalog.FeedQuery) : handled :=
  match ViewerRoutes.getFeed viewerCatalog query with
  | Return result =>
      (Return (Reply 200
                 [ViewerRoutes.cacheControl (ViewerRoutes.FEED_CACHE_TTL_SECONDS config);
                  ViewerRoutes.xCache (Catalog.feedFromCache result)]
                 (FeedBody (Catalog.items result) (Catalog.nextCursor result))),
       [])
  | Throw error => (Throw error, [])
  end.

(** GET /series/:slug *)
Definition seriesDetailHandler (slug : string) : handled :=
  match ViewerRoutes.getSeriesDetail viewerCatalog slug with
  | Return result =>
      match result with
      | None => (Return (Reply 404 [] (Message "Series not found")), [])
      | Some result =>
          (Return (Reply 200
                     [ViewerRoutes.cacheControl (ViewerRoutes.SERIES_CACHE_TTL_SECONDS config);
                      ViewerRoutes.xCache (Catalog.detailFromCache result)]
                     (SeriesBody (Catalog.series result) (Catalog.seasons result)
                        (Catalog.standaloneEpisodes result))),
           [])
      end
  | Throw error => (Throw error, [])
  end.

(** GET /series/:slug/related *)
Definition relatedSeriesHandler (slug : string) (limit : N) : handled :=
  match ViewerRoutes.getRelatedSeries viewerCatalog slug limit with
  | Return result =>
      match result with
      | None => (Return (Reply 404 [] (Message "Series not found")), [])
      | Some result =>
          (Return (Reply 200
                     [ViewerRoutes.cacheControl (ViewerRoutes.RELATED_CACHE_TTL_SECONDS config);
                      ViewerRoutes.xCache (Catalog.relatedFromCache result)]
                     (RelatedBody (Catalog.relatedItems result))),
           [])
      end
  | Throw error => (Throw error, [])
  end.

End Routes.

End ViewerRoutesPlain.

(* ===================================================================== *)
(** * Internal routes: episode metadata and engagement metrics            *)
(* ===================================================================== *)

Module InternalEvents.
Import Fastify.

Section Routes.
(** The metrics of an engagement event, as the schema of the body
    parses them. *)
Context {Metrics : Type}.
(** [viewerCatalog.getEpisodeMetadata] and
    [trendingService.applyMetrics]. *)
Variable getEpisodeMetadata : string → outcome exn (option Catalog.FeedItem).
Variable applyMetrics : list Metrics → outcome exn unit.

(** What the two metadata routes share, up to the message: the
    handler returns the metadata, which the framework sends with 200,
    or throws. *)
Definition metadataHandler (notFoundMessage : string) (id : string)
  : outcome exn Catalog.FeedItem :=
  match getEpisodeMetadata id with
  | Return metadata =>
      match metadata with
      | None => Throw (notFound notFoundMessage)
      | Some metadata => Return metadata
      end
  | Throw error => Throw error
  end.

(** GET /videos/:id *)
Definition videoHandler (id : string) : outcome exn Catalog.FeedItem :=
  metadataHandler "Episode not found" id.

(** GET /catalog/media/:id *)
Definition mediaHandler (id : string) : outcome exn Catalog.FeedItem :=
  metadataHandler "Media not found" id.

(** POST /events/engagement/metrics *)
Definition metricsHandler (metrics : list Metrics) : handled :=
  match applyMetrics metrics with
  | Return _ => (Return (Reply 202 [] Accepted), [])
  | Throw error =>
      (Return (Reply 500 [] (Message "Unable to persist engagement metrics")),
       [InternalRoutes.logged error None "Failed to apply engagement metrics"])
  end.

End Routes.

End InternalEvents.

(* ===================================================================== *)
(** * Start and shutdown of the process (index)                           *)
(* ===================================================================== *)

Module Lifecycle.

(** The calls [main] and [shutdown] make, as the process sees them. *)
Inductive Step :=
| BuildApp
| LoadConfig
| Listen
| StartGrpc
| LogReady
| LogStartFailed
| LogShuttingDown
| LogShutdownError
| StopGrpc
| DisconnectPrisma
| CloseApp
| OnSignal (signal : string)
| Exit (code : Z).

#[global] Instance Step_eq_dec : EqDecision Step.
Proof. solve_decision. Defined.

(** How a piece of code ends: it goes on, a call threw (or its promise
    was rejected), or the process has exited. *)
Inductive ending :=
| Done
| Failed (failed : Step)
| Exited (code : Z).

(** The calls made, in order, and the ending. *)
Definition run : Type := list Step * ending.

(** The world: which calls fail, and whether [startGrpcServer] yields
    a server (a truthy value). *)
Record World := {
  fails : Step → bool;
  grpcServer : bool;
}.

Section Process.
Variable w : World.

Definition call (s : Step) : run :=
  ([s], if fails w s then Failed s else Done).

(** [process.exit(code)] does not return. *)
Definition exit (code : Z) : run := ([Exit code], Exited code).

Definition skip : run := ([], Done).

(** [a; b] *)
Definition andThen (a b : run) : run :=
  match a with
  | (t, Done) => (t ++ fst b, snd b)
  | _ => a
  end.

(** [try { a } catch (error) { handler }]; the handler is given the
    call that failed. *)
Definition tryCatch (a : run) (handler : Step → run) : run :=
  match a with
  | (t, Failed s) => (t ++ fst (handler s), snd (handler s))
  | _ => a
  end.

(** The clean-up both paths share: the gRPC server if there is one,
    the database client, the HTTP server. *)
Definition release (grpc : bool) : run :=
  andThen (if grpc then call StopGrpc else skip)
    (andThen (call DisconnectPrisma) (call CloseApp)).

(** [grpcServer] in the [catch] of [main]: it was assigned if
    [startGrpcServer] had returned, that is if the call that failed came
    after it. *)
Definition assignedBefore (failed : Step) : bool :=
  bool_decide (failed = LogReady) && grpcServer w.

Definition main : run :=
  andThen (call BuildApp)
    (andThen (call LoadConfig)
       (andThen
          (tryCatch
             (andThen (call Listen) (andThen (call StartGrpc) (call LogReady)))
             (λ failed,
                andThen (call LogStartFailed)
                  (andThen (release (assignedBefore failed)) (exit 1))))
          (andThen (call (OnSignal "SIGTERM")) (call (OnSignal "SIGINT"))))).

(** The signal handler [main] registers; [grpcServer] is what
    [startGrpcServer] returned. *)
Definition shutdown : run :=
  andThen (call LogShuttingDown)
    (tryCatch
       (andThen (release (grpcServer w)) (exit 0))
       (λ _, andThen (call LogShutdownError) (exit 1))).

End Process.

(** A world in which every call succeeds except those of [broken]. *)
Definition worldWhere (broken : list Step) (grpc : bool) : World :=
  {| fails := λ s, bool_decide (s ∈ broken); grpcServer := grpc |}.

End Lifecycle.

(* ===================================================================== *)
(** * The service token of the configuration schema (config/index)        *)
(* ===================================================================== *)

Module AuthToken.

(** A string of the environment, as its UTF-16 code units. *)
Abbreviation jsString := (list N).

(** The white space and line terminators that [trim] removes. *)
Definition trimmed (u : N) : bool :=
  bool_decide (u ∈ [9; 10; 11; 12; 13; 32; 160; 5760; 8232; 8233; 8239; 8287;
                    12288; 65279]%N)
  || ((8192 <=? u)%N && (u <=? 8202)%N).

Fixpoint trimStart (s : jsString) : jsString :=
  match s with
  | u :: r => if trimmed u then trimStart r else s
  | [] => []
  end.

Definition trimEnd (s : jsString) : jsString :=
  reverse (trimStart (reverse s)).

Definition trim (s : jsString) : jsString := trimEnd (trimStart s).

(** [(value) => value && value.trim().length > 0 ? value : undefined]
    on an optional string. *)
Definition transform (value : option jsString) : option jsString :=
  match value with
  | None => None
  | Some s =>
      if bool_decide (s ≠ []) && (0 <? length (trim s))%nat
      then Some s else None
  end.

End AuthToken.

(* ===================================================================== *)
(** * Properties                                                          *)
(* ===================================================================== *)

(** ** The reference JSON runtime reads back what it writes *)

Module RefJsonFacts.
Import RefJson.

Lemma read_digits_step (c : ascii) (d : Z) (acc : Z) (s : string) :
  digit_of c = Some d →
  read_digits acc (String c s) = read_digits (10 * acc + d) s.
Proof. intros H. simpl. by rewrite H. Qed.

Lemma read_digits_uint (d : Decimal.uint) (acc : positive) (rest : string) :
  no_digit rest →
  read_digits (Zpos acc) (NilEmpty.string_of_uint d +:+ rest)
  = (Zpos (Pos.of_uint_acc d acc), rest).
Proof.
  intros Hrest. revert acc.
  induction d as [|d IH|d IH|d IH|d IH|d IH|d IH|d IH|d IH|d IH|d IH];
    intros acc; cbn [NilEmpty.string_of_uint Pos.of_uint_acc].
  1: { destruct rest as [|c rest]; [done|]. simpl in *. by rewrite Hrest. }
  all: change (String ?c ?s +:+ rest) with (String c (s +:+ rest));
    erewrite read_digits_step by (vm_compute; reflexivity);
    rewrite <-IH; f_equal; lia.
Qed.

(** The digits of a positive number start with a digit other than 0. *)
Lemma to_uint_head (p : positive) :
  match Pos.to_uint p with
  | Decimal.Nil | Decimal.D0 _ => False
  | _ => True
  end.
Proof.
  pose proof (Unsigned.to_uint_nonnil p) as Hnil.
  pose proof (Unsigned.to_uint_nonzero p) as Hzero.
  pose proof (Unsigned.to_of (Pos.to_uint p)) as Hnorm.
  rewrite Unsigned.of_to in Hnorm. change (N.to_uint (Npos p)) with (Pos.to_uint p) in Hnorm.
  destruct (Pos.to_uint p) as [|d|d|d|d|d|d|d|d|d|d]; try done.
  unfold Decimal.unorm in Hnorm. cbn [Decimal.nzhead] in Hnorm.
  destruct (Decimal.nzhead d) eqn:Hd; try done.
  by destruct (nzhead_nonzero d u).
Qed.

Lemma read_nat_pos (p : positive) (rest : string) :
  no_digit rest →
  read_nat (NilEmpty.string_of_uint (Pos.to_uint p) +:+ rest) = Some (Zpos p, rest).
Proof.
  intros Hrest.
  pose proof (to_uint_head p) as Hhead.
  pose proof (Unsigned.of_to p) as Hof.
  destruct (Pos.to_uint p) as [|d|d|d|d|d|d|d|d|d|d]; try done;
    cbn [Pos.of_uint] in Hof; injection Hof as Hof;
    cbn [NilEmpty.string_of_uint];
    change (String ?c ?s +:+ rest) with (String c (s +:+ rest));
    unfold read_nat;
    match goal with
    | |- context [digit_of ?c] =>
        let v := eval vm_compute in (digit_of c) in
        change (digit_of c) with v
    end;
    cbv iota; rewrite read_digits_uint by done; by rewrite Hof.
Qed.

Lemma read_number_write_Z (z : Z) (rest : string) :
  no_digit rest →
  read_number (write_Z z +:+ rest) = Some (JNum z, rest).
Proof.
  intros Hrest. destruct z as [|p|p]; simpl write_Z.
  - done.
  - pose proof (to_uint_head p) as Hhead.
    pose proof (read_nat_pos p rest Hrest) as Hread.
    destruct (Pos.to_uint p) as [|d|d|d|d|d|d|d|d|d|d]; try done;
      cbn [NilEmpty.string_of_uint] in *;
      change (String ?c ?s +:+ rest) with (String c (s +:+ rest)) in *;
      unfold read_number; by rewrite Hread.
  - change (String "-" ?s +:+ rest) with (String "-" (s +:+ rest)).
    unfold read_number. by rewrite read_nat_pos.
Qed.


Lemma append_cons (c : ascii) (s t : string) :
  String c s +:+ t = String c (s +:+ t).
Proof. reflexivity. Qed.

Lemma append_assoc (s1 s2 s3 : string) :
  (s1 +:+ s2) +:+ s3 = s1 +:+ (s2 +:+ s3).
Proof.
  induction s1 as [|c s1 IH]; [done|].
  rewrite !append_cons. by f_equal.
Qed.

Lemma read_chars_escape_char (c : ascii) (t : string) :
  read_chars (escape_char c +:+ t)
  = match read_chars t with
    | Some (x, r) => Some (String c x, r)
    | None => None
    end.
Proof. destruct c as [[] [] [] [] [] [] [] []]; reflexivity. Qed.

Lemma read_chars_escape (s rest : string) :
  read_chars (escape s +:+ String dquote rest) = Some (s, rest).
Proof.
  induction s as [|c s IH]; [done|].
  cbn [escape]. rewrite append_assoc.
  by rewrite read_chars_escape_char, IH.
Qed.

Lemma read_chars_quote (s rest : string) :
  ∃ t, quote s +:+ rest = String dquote t ∧ read_chars t = Some (s, rest).
Proof.
  exists (escape s +:+ String dquote rest). split.
  - unfold quote. by rewrite append_cons, append_assoc.
  - apply read_chars_escape.
Qed.


Lemma append_nil_r (s : string) : s +:+ "" = s.
Proof. induction s as [|c s IH]; [done|]. by rewrite append_cons, IH. Qed.

Lemma length_append (s t : string) :
  String.length (s +:+ t) = (String.length s + String.length t)%nat.
Proof.
  induction s as [|c s IH]; [done|].
  rewrite append_cons. simpl. by rewrite IH.
Qed.

Lemma substring_all (s : string) : String.substring 0 (String.length s) s = s.
Proof. induction s as [|c s IH]; [done|]. simpl. by rewrite IH. Qed.

Lemma expect_word (word : string) (v : json) (rest : string) :
  expect word v (word +:+ rest) = Some (v, rest).
Proof.
  unfold expect.
  assert (String.prefix word (word +:+ rest) = true) as ->.
  { induction word as [|c word IH]; [by destruct rest|].
    rewrite append_cons. simpl. by destruct (ascii_dec c c). }
  f_equal. f_equal.
  rewrite length_append.
  replace (String.length word + String.length rest - String.length word)%nat
    with (String.length rest) by lia.
  induction word as [|c word IH]; [apply substring_all|].
  by rewrite append_cons.
Qed.

Lemma after_here (c : ascii) (rest : string) :
  is_ws c = false → after c (String c rest) = Some rest.
Proof.
  intros Hws. unfold after. cbn [skip_ws]. rewrite Hws.
  by rewrite Ascii.eqb_refl.
Qed.

Lemma after_other (c c' : ascii) (rest : string) :
  is_ws c' = false → Ascii.eqb c' c = false → after c (String c' rest) = None.
Proof.
  intros Hws Hne. unfold after. cbn [skip_ws]. by rewrite Hws, Hne.
Qed.

Lemma write_Z_head (z : Z) :
  ∃ c s, write_Z z = String c s ∧ opens c
         ∧ Ascii.eqb c "n" = false ∧ Ascii.eqb c "t" = false
         ∧ Ascii.eqb c "f" = false ∧ Ascii.eqb c dquote = false
         ∧ Ascii.eqb c "[" = false ∧ Ascii.eqb c "{" = false.
Proof.
  destruct z as [|p|p]; simpl write_Z.
  - eexists _, _. split; [done|]. by vm_compute.
  - pose proof (to_uint_head p) as Hhead.
    destruct (Pos.to_uint p) as [|d|d|d|d|d|d|d|d|d|d]; try done;
      cbn [NilEmpty.string_of_uint]; (eexists _, _; split; [done|]; by vm_compute).
  - eexists _, _. split; [done|]. by vm_compute.
Qed.

Lemma write_head (v : json) :
  ∃ c s, write v = String c s ∧ opens c.
Proof.
  destruct v as [|[]|z|s|l|l]; cbn [write].
  1-3: (eexists _, _; split; [done|]; by vm_compute).
  - destruct (write_Z_head z) as (c & s & ? & ? & _). eauto.
  - unfold quote. eexists _, _. split; [done|]. by vm_compute.
  - rewrite append_cons. eexists _, _. split; [done|]. by vm_compute.
  - rewrite append_cons. eexists _, _. split; [done|]. by vm_compute.
Qed.

Lemma read_value_number (fuel : nat) (z : Z) (rest : string) :
  no_digit rest →
  read_value (S fuel) (write_Z z +:+ rest) = Some (JNum z, rest).
Proof.
  intros Hrest.
  rewrite <-(read_number_write_Z z rest Hrest).
  destruct (write_Z_head z) as (c & s & -> & (Hws & _) & Hn & Ht & Hf & Hq & Ha & Ho).
  rewrite append_cons. cbn [read_value skip_ws].
  by rewrite Hws, Hn, Ht, Hf, Hq, Ha, Ho.
Qed.


Lemma no_digit_closer (c : ascii) (rest : string) :
  c = ","%char ∨ c = "]"%char ∨ c = "}"%char → no_digit (String c rest).
Proof. by intros [-> | [-> | ->]]. Qed.

Lemma concat_cons2 (sep x y : string) (l : list string) :
  String.concat sep (x :: y :: l) = x +:+ sep +:+ String.concat sep (y :: l).
Proof. reflexivity. Qed.

Lemma read_elements_written p (l : list json) :
  ∀ (n : nat) (acc : list json) (v : json) (rest : string),
    (length (v :: l) ≤ n)%nat →
    Forall (reads p) (v :: l) →
    read_elements p n acc
      (String.concat "," (map write (v :: l)) +:+ String "]" rest)
    = Some (JArr (acc ++ v :: l), rest).
Proof.
  induction l as [|v' l IH]; intros n acc v rest Hn Hall;
    (destruct n as [|n]; [simpl in Hn; lia|]);
    apply Forall_cons in Hall as [Hv Hall].
  - cbn [map String.concat read_elements].
    rewrite Hv by (apply no_digit_closer; auto).
    by rewrite after_other, after_here.
  - cbn [map]. rewrite concat_cons2, !append_assoc, append_cons.
    cbn [read_elements].
    rewrite Hv by (apply no_digit_closer; auto).
    rewrite after_here by done.
    change ("" +:+ ?s) with s.
    pose proof (IH n (acc ++ [v]) v' rest) as IH'. cbn [map] in IH'.
    rewrite IH'; [|simpl in *; lia|done].
    by rewrite <-app_assoc.
Qed.

Lemma obj_set_fresh (k : string) (v : json) (acc : list (string * json)) :
  k ∉ acc.*1 → obj_set k v acc = acc ++ [(k, v)].
Proof.
  induction acc as [|[k' v'] acc IH]; [done|].
  rewrite fmap_cons, not_elem_of_cons. intros [Hne Hnin]. cbn [obj_set].
  destruct (decide (k = k')); [done|]. by rewrite IH.
Qed.

Lemma read_members_written p (l : list (string * json)) :
  ∀ (n : nat) (acc : list (string * json)) (kv : string * json) (rest : string),
    (length (kv :: l) ≤ n)%nat →
    NoDup (acc ++ kv :: l).*1 →
    Forall (λ kv, reads p (snd kv)) (kv :: l) →
    read_members p n acc
      (String.concat "," (map write_member (kv :: l)) +:+ String "}" rest)
    = Some (JObj (acc ++ kv :: l), rest).
Proof.
  induction l as [|kv' l IH]; intros n acc [k v] rest Hn Hdup Hall;
    (destruct n as [|n]; [simpl in Hn; lia|]);
    apply Forall_cons in Hall as [Hv Hall]; simpl in Hv;
    (assert (k ∉ acc.*1) as Hfresh
       by (rewrite fmap_app, fmap_cons in Hdup;
           apply NoDup_app in Hdup as (_ & Hdis & _);
           intros Hin; apply (Hdis _ Hin); simpl; left)).
  - cbn [map String.concat read_members]. unfold write_member at 1; simpl fst; simpl snd.
    destruct (read_chars_quote k (":" +:+ write v +:+ String "}" rest))
      as (t & Hq & Hread).
    rewrite !append_assoc, Hq, after_here by done.
    rewrite Hread, append_cons, after_here by done.
    change ("" +:+ ?s) with s.
    rewrite Hv by (apply no_digit_closer; auto).
    rewrite after_other, after_here by done.
    by rewrite obj_set_fresh.
  - cbn [map]. rewrite concat_cons2. unfold write_member at 1; simpl fst; simpl snd.
    destruct (read_chars_quote k
                (":" +:+ write v +:+ "," +:+
                 String.concat "," (map write_member (kv' :: l)) +:+ String "}" rest))
      as (t & Hq & Hread).
    cbn [read_members].
    rewrite !append_assoc. cbn [map] in Hq. rewrite Hq, after_here by done.
    rewrite Hread, append_cons, after_here by done.
    change ("" +:+ ?s) with s.
    rewrite Hv by (apply no_digit_closer; auto).
    rewrite append_cons, after_here by done.
    change ("" +:+ ?s) with s.
    rewrite obj_set_fresh by done.
    rewrite (IH n (acc ++ [(k, v)]) kv' rest); [|simpl in *; lia| |done].
    + by rewrite <-app_assoc.
    + by rewrite <-app_assoc.
Qed.


Lemma json_nested_ind (P : json → Prop) :
  P JNull → (∀ b, P (JBool b)) → (∀ z, P (JNum z)) → (∀ s, P (JStr s)) →
  (∀ l, Forall P l → P (JArr l)) →
  (∀ l, Forall (λ kv, P (snd kv)) l → P (JObj l)) →
  ∀ v, P v.
Proof.
  intros Hnull Hbool Hnum Hstr Harr Hobj.
  fix IH 1. intros [|b|z|s|l|l].
  - exact Hnull.
  - apply Hbool.
  - apply Hnum.
  - apply Hstr.
  - apply Harr. induction l as [|v l IHl]; constructor; [apply IH|exact IHl].
  - apply Hobj. induction l as [|[k v] l IHl]; constructor; [apply IH|exact IHl].
Qed.

Lemma size_pos (v : json) : (1 ≤ size v)%nat.
Proof. destruct v; simpl; lia. Qed.

Lemma list_sum_bounds {A} (f : A → nat) (l : list A) :
  (∀ x, 1 ≤ f x)%nat →
  (length l ≤ list_sum (map f l))%nat
  ∧ Forall (λ x, f x ≤ list_sum (map f l))%nat l.
Proof.
  intros Hf. induction l as [|x l [IHlen IHall]]; simpl; [by split|].
  pose proof (Hf x). split; [lia|]. constructor; [lia|].
  eapply Forall_impl; [exact IHall|]. simpl. intros; lia.
Qed.

Lemma read_value_open (fuel : nat) (c : ascii) (r : string) :
  is_ws c = false →
  read_value (S fuel) (String c r)
  = if Ascii.eqb c "n" then expect "ull" JNull r
    else if Ascii.eqb c "t" then expect "rue" (JBool true) r
    else if Ascii.eqb c "f" then expect "alse" (JBool false) r
    else if Ascii.eqb c dquote then
           match read_chars r with
           | Some (t, r') => Some (JStr t, r')
           | None => None
           end
    else if Ascii.eqb c "[" then
           match after "]" r with
           | Some r' => Some (JArr [], r')
           | None => read_elements (read_value fuel) fuel [] r
           end
    else if Ascii.eqb c "{" then
           match after "}" r with
           | Some r' => Some (JObj [], r')
           | None => read_members (read_value fuel) fuel [] r
           end
    else read_number (String c r).
Proof. intros Hws. cbn [read_value skip_ws]. by rewrite Hws. Qed.

(** Reading back: with fuel for every value in it, [read_value] reads a
    written value and stops where it ends. *)
Lemma read_value_written (v : json) :
  wf v = true → ∀ fuel, (size v ≤ fuel)%nat → reads (read_value fuel) v.
Proof.
  induction v as [|b|z|s|l IH|l IH] using json_nested_ind;
    intros Hwf fuel Hfuel rest Hrest;
    (destruct fuel as [|fuel]; [simpl in Hfuel; lia|]).
  - change (write JNull) with ("n" +:+ "ull"). rewrite append_assoc, append_cons.
    rewrite read_value_open by done. exact (expect_word "ull" JNull rest).
  - destruct b.
    + change (write (JBool true)) with ("t" +:+ "rue").
      rewrite append_assoc, append_cons.
      rewrite read_value_open by done. exact (expect_word "rue" (JBool true) rest).
    + change (write (JBool false)) with ("f" +:+ "alse").
      rewrite append_assoc, append_cons.
      rewrite read_value_open by done. exact (expect_word "alse" (JBool false) rest).
  - by apply read_value_number.
  - cbn [write].
    destruct (read_chars_quote s rest) as (t & -> & Hread).
    rewrite read_value_open by done. cbn. by rewrite Hread.
  - cbn [write]. rewrite !append_assoc, append_cons.
    rewrite read_value_open by done. cbn -[after read_elements].
    change ("" +:+ ?s) with s. change ("]" +:+ rest) with (String "]" rest).
    destruct l as [|v l].
    + cbn [map String.concat]. change ("" +:+ ?s) with s.
      by rewrite after_here.
    + destruct (write_head v) as (c & s & Hc & Hws & Hclose & _).
      assert (after "]" (String.concat "," (map write (v :: l)) +:+ String "]" rest)
              = None) as ->.
      { destruct l; cbn [map String.concat]; rewrite Hc, ?append_cons;
          by apply after_other. }
      change (read_elements (read_value fuel) fuel []
                (String.concat "," (map write (v :: l)) +:+ String "]" rest)
              = Some (JArr ([] ++ v :: l), rest)).
      cbn [size] in Hfuel. cbn [wf] in Hwf.
      destruct (list_sum_bounds size (v :: l) size_pos) as [Hlen Hsizes].
      apply read_elements_written; [lia|].
      apply Forall_forall. intros x Hx.
      rewrite Forall_forall in IH, Hsizes.
      apply IH; [done| |].
      * rewrite forallb_forall in Hwf. apply Hwf. by apply list_elem_of_In.
      * specialize (Hsizes x Hx). simpl in Hsizes, Hfuel. lia.
  - cbn [write]. rewrite !append_assoc, append_cons.
    rewrite read_value_open by done. cbn -[after read_members].
    change ("" +:+ ?s) with s. change ("}" +:+ rest) with (String "}" rest).
    change (map _ l) with (map write_member l).
    apply andb_true_iff in Hwf as [Hdup Hwf]. apply bool_decide_eq_true in Hdup.
    destruct l as [|[k v] l].
    + cbn [map String.concat]. change ("" +:+ ?s) with s.
      by rewrite after_here.
    + assert (after "}" (String.concat "," (map write_member ((k, v) :: l))
                         +:+ String "}" rest) = None) as ->.
      { destruct l; cbn [map String.concat]; unfold write_member at 1, quote;
          rewrite ?append_cons; by apply after_other. }
      change (read_members (read_value fuel) fuel []
                (String.concat "," (map write_member ((k, v) :: l)) +:+ String "}" rest)
              = Some (JObj ([] ++ (k, v) :: l), rest)).
      cbn [size] in Hfuel.
      destruct (list_sum_bounds (λ kv, size (snd kv)) ((k, v) :: l)
                  (λ kv, size_pos (snd kv))) as [Hlen Hsizes].
      apply read_members_written; [lia|done|].
      apply Forall_forall. intros x Hx.
      rewrite Forall_forall in IH, Hsizes.
      apply IH; [done| |].
      * rewrite forallb_forall in Hwf. apply Hwf. by apply list_elem_of_In.
      * specialize (Hsizes x Hx). simpl in Hsizes, Hfuel. lia.
Qed.


Lemma concat_length_ge {A} (f : A → nat) (g : A → string) (l : list A) :
  Forall (λ x, f x ≤ String.length (g x))%nat l →
  (list_sum (map f l) ≤ String.length (String.concat "," (map g l)))%nat.
Proof.
  induction 1 as [|x l Hx _ IH]; [done|].
  destruct l as [|y l].
  - simpl. lia.
  - cbn [map]. rewrite concat_cons2, !length_append.
    cbn [map] in IH. simpl list_sum in *. lia.
Qed.

Lemma size_le_length (v : json) : (size v ≤ String.length (write v))%nat.
Proof.
  induction v as [|[]|z|s|l IH|l IH] using json_nested_ind;
    try (simpl; lia).
  - destruct (write_Z_head z) as (c & s & Hz & _).
    cbn [write size]. rewrite Hz. simpl. lia.
  - cbn [write size]. rewrite !length_append.
    pose proof (concat_length_ge size write l IH). simpl. lia.
  - cbn [write size]. rewrite !length_append.
    pose proof (concat_length_ge (λ kv, size (snd kv))
                  (λ kv, quote (fst kv) +:+ ":" +:+ write (snd kv)) l) as Hlen.
    simpl. apply le_n_S. etrans; [apply Hlen|lia].
    eapply Forall_impl; [exact IH|]. intros [k v] Hv. simpl in *.
    rewrite !length_append. lia.
Qed.

(** The reference runtime reads back every value it writes. *)
Lemma parse_write (v : json) : wf v = true → parse (write v) = Some v.
Proof.
  intros Hwf. unfold parse.
  pose proof (read_value_written v Hwf (S (String.length (write v)))) as Hread.
  specialize (Hread ltac:(pose proof (size_le_length v); lia) "" I).
  rewrite append_nil_r in Hread. by rewrite Hread.
Qed.

Lemma write_nonempty (v : json) : write v ≠ "".
Proof. destruct (write_head v) as (c & s & -> & _). done. Qed.

End RefJsonFacts.

(** ** The cache store adapter *)

Module CacheFacts.

Section Adapter.
Context `{J : JsonRuntime}.

Lemma GET_DEL key r : GET key (DEL key r) = None.
Proof. unfold GET, live, DEL; simpl. by rewrite lookup_delete_eq. Qed.

Lemma exists_DEL key r : exists_ (DEL key r) key = false.
Proof.
  unfold exists_, live, DEL; simpl. rewrite lookup_delete_eq.
  apply bool_decide_eq_false. by intros [? ?].
Qed.

Lemma falsy_string_Some pl : pl ≠ "" → falsy_string (Some pl) = false.
Proof. intros H. unfold falsy_string. by destruct (decide (pl = "")). Qed.

(** No call of [getCachedJson] ends in an exception: the only
    statement that can throw is inside the [try]. *)
Lemma getCachedJson_returns key r :
  ∃ v r', getCachedJson key r = (Return v, r').
Proof.
  unfold getCachedJson, bind, redis_get, try_catch, json_parse.
  destruct (falsy_string (GET key r)); [by eexists _, _|].
  destruct (JSON_parse _); by eexists _, _.
Qed.

Lemma setCachedJson_run r key v ttlSeconds :
  setCachedJson key v ttlSeconds r = (Return tt, written r key v ttlSeconds).
Proof.
  unfold setCachedJson, written, redis_set_ex, redis_set, SET_EX, SET.
  destruct (decide (ttlSeconds > 0)) as [Hpos|Hnpos]; [|done].
  destruct (decide (0 < ttlSeconds)); [done | lia].
Qed.

Lemma GET_written_later r key v ttlSeconds (d : Z) :
  0 ≤ d →
  GET key (advance d (written r key v ttlSeconds))
  = if decide (ttlSeconds > 0 ∧ ttlSeconds ≤ d)
    then None else Some (JSON_stringify v).
Proof.
  intros Hd. unfold GET, live, advance, expired, written; simpl.
  rewrite lookup_insert_eq.
  destruct (decide (ttlSeconds > 0)) as [Hpos|Hnpos]; simpl.
  - destruct (decide (ttlSeconds > 0 ∧ ttlSeconds ≤ d)) as [[_ Hle]|Hn].
    + by rewrite bool_decide_eq_true_2 by lia.
    + by rewrite bool_decide_eq_false_2 by lia.
  - destruct (decide (ttlSeconds > 0 ∧ ttlSeconds ≤ d)) as [[? _]|_];
      [lia | done].
Qed.

Lemma GET_written r key v ttlSeconds :
  GET key (written r key v ttlSeconds) = Some (JSON_stringify v).
Proof.
  unfold GET, live, expired, written; simpl. rewrite lookup_insert_eq.
  destruct (decide (ttlSeconds > 0)); simpl; [|done].
  by rewrite bool_decide_eq_false_2 by lia.
Qed.

Lemma getCachedJson_hit r key pl v :
  GET key r = Some pl → pl ≠ "" → JSON_parse pl = Some v →
  getCachedJson key r = (Return v, r).
Proof.
  intros Hget Hne Hparse.
  unfold getCachedJson, bind, redis_get, try_catch, json_parse.
  rewrite Hget, (falsy_string_Some _ Hne). simpl. by rewrite Hparse.
Qed.

Lemma getCachedJson_miss r key :
  GET key r = None → getCachedJson key r = (Return js_null, r).
Proof.
  intros Hget. unfold getCachedJson, bind, redis_get. by rewrite Hget.
Qed.

End Adapter.

End CacheFacts.

(** C1. A key whose payload is not empty and does not parse as JSON:
    [getCachedJson] returns [null], having deleted the key, so that the
    key no longer exists in the store; and on a store that answers no
    call of [getCachedJson], whatever the key holds, ends in an
    exception, a parse error in particular. *)
Theorem getCachedJson_corrupt_payload_self_heals
    `{J : JsonRuntime} (r : redis) (key pl : string) :
  GET key r = Some pl → pl ≠ "" → JSON_parse pl = None →
  getCachedJson key r = (Return js_null, DEL key r)
  ∧ GET key (DEL key r) = None
  ∧ exists_ (DEL key r) key = false
  ∧ ∀ r0 k e, fst (getCachedJson k r0) ≠ Throw e.
Proof.
  intros Hget Hne Hparse. repeat split.
  - unfold getCachedJson, bind, redis_get, try_catch, json_parse.
    rewrite Hget, (CacheFacts.falsy_string_Some _ Hne). simpl.
    by rewrite Hparse.
  - apply CacheFacts.GET_DEL.
  - apply CacheFacts.exists_DEL.
  - intros r0 k e. destruct (CacheFacts.getCachedJson_returns k r0) as (v & r' & ->).
    discriminate.
Qed.

Lemma getCachedJson_corrupt_payload_witness :
  let r := SET "catalog:feed:limit=10" "{not json" (Redis 0 ∅) in
  getCachedJson (J := RefJson.runtime) "catalog:feed:limit=10" r
    = (Return RefJson.JNull, DEL "catalog:feed:limit=10" r)
  ∧ GET "catalog:feed:limit=10" (DEL "catalog:feed:limit=10" r) = None
  ∧ exists_ (DEL "catalog:feed:limit=10" r) "catalog:feed:limit=10" = false
  ∧ ∀ r0 k e, fst (getCachedJson (J := RefJson.runtime) k r0) ≠ Throw e.
Proof.
  apply (getCachedJson_corrupt_payload_self_heals (J := RefJson.runtime)
           (SET "catalog:feed:limit=10" "{not json" (Redis 0 ∅))
           "catalog:feed:limit=10" "{not json").
  - vm_compute. reflexivity.
  - discriminate.
  - vm_compute. reflexivity.
Defined.

(** C5. [setCachedJson] writes the JSON text of the value under the key
    and touches nothing else: with a positive [ttlSeconds] the key
    expires that many seconds later, with [ttlSeconds <= 0] it never
    expires. Read [d] seconds after the write, the key holds the text
    unless a positive [ttlSeconds] has elapsed. *)
Theorem setCachedJson_stores_with_expiry
    `{J : JsonRuntime} (r : redis) (key : string) (v : value)
    (ttlSeconds : Z) (d : N) :
  let expiry :=
    if decide (ttlSeconds > 0) then Some (now r + ttlSeconds) else None in
  let r' :=
    Redis (now r) (<[key := Entry (JSON_stringify v) expiry]> (db r)) in
  setCachedJson key v ttlSeconds r = (Return tt, r')
  ∧ GET key (advance (Z.of_N d) r')
    = if decide (ttlSeconds > 0 ∧ ttlSeconds ≤ Z.of_N d)
      then None else Some (JSON_stringify v).
Proof.
  simpl. split.
  - apply CacheFacts.setCachedJson_run.
  - apply (CacheFacts.GET_written_later r key v ttlSeconds). lia.
Qed.

(** C9. Writing a value with [setCachedJson] and reading the key back
    with [getCachedJson] returns the value, for every value that
    [JSON.parse] recovers from its [JSON.stringify] text. For [null] the
    value read back is the [null] that a missing key gives: the caller
    cannot tell a stored [null] from an absent key. *)
Theorem setCachedJson_getCachedJson_roundtrip
    `{J : JsonRuntime} (r : redis) (key : string) (v : value)
    (ttlSeconds : Z) :
  JSON_stringify v ≠ "" →
  JSON_parse (JSON_stringify v) = Some v →
  let r' := snd (setCachedJson key v ttlSeconds r) in
  getCachedJson key r' = (Return v, r')
  ∧ (v = js_null →
     ∀ r0, GET key r0 = None →
       fst (getCachedJson key r') = fst (getCachedJson key r0)).
Proof.
  intros Hne Hparse r'. subst r'.
  rewrite CacheFacts.setCachedJson_run. simpl.
  assert (Hread : getCachedJson key (written r key v ttlSeconds)
                  = (Return v, written r key v ttlSeconds)).
  { eapply CacheFacts.getCachedJson_hit; eauto using CacheFacts.GET_written. }
  split; [exact Hread|].
  intros -> r0 Hmiss.
  by rewrite Hread, (CacheFacts.getCachedJson_miss _ _ Hmiss).
Qed.

Lemma setCachedJson_getCachedJson_roundtrip_witness :
  let v := RefJson.JObj
             [("items", RefJson.JArr [RefJson.JStr "ep-1"; RefJson.JNum 42]);
              ("nextCursor", RefJson.JNull)] in
  let r' := snd (setCachedJson (J := RefJson.runtime)
                   "catalog:feed" v 60 (Redis 1000 ∅)) in
  getCachedJson (J := RefJson.runtime) "catalog:feed" r' = (Return v, r')
  ∧ (v = RefJson.JNull →
     ∀ r0, GET "catalog:feed" r0 = None →
       fst (getCachedJson (J := RefJson.runtime) "catalog:feed" r')
       = fst (getCachedJson (J := RefJson.runtime) "catalog:feed" r0)).
Proof.
  apply (setCachedJson_getCachedJson_roundtrip (J := RefJson.runtime)
           (Redis 1000 ∅) "catalog:feed"
           (RefJson.JObj
              [("items", RefJson.JArr [RefJson.JStr "ep-1"; RefJson.JNum 42]);
               ("nextCursor", RefJson.JNull)]) 60).
  - vm_compute. discriminate.
  - vm_compute. reflexivity.
Defined.

(** In the reference runtime: a stored [null], [false], [0] and the
    empty string are read back as written, and the [null] read back is
    what a key that was never written gives. *)
Example stored_null_reads_as_missing :
  let r := Redis 1000 ∅ in
  let get_after_set v :=
    fst (getCachedJson (J := RefJson.runtime) "k"
           (snd (setCachedJson (J := RefJson.runtime) "k" v 0 r))) in
  get_after_set RefJson.JNull = Return RefJson.JNull
  ∧ fst (getCachedJson (J := RefJson.runtime) "k" r) = Return RefJson.JNull
  ∧ get_after_set (RefJson.JBool false) = Return (RefJson.JBool false)
  ∧ get_after_set (RefJson.JNum 0) = Return (RefJson.JNum 0)
  ∧ get_after_set (RefJson.JStr "") = Return (RefJson.JStr "").
Proof. vm_compute. done. Qed.

(** In the reference runtime every value without a repeated member
    name is read back as written, whatever the expiry. *)
Lemma reference_runtime_roundtrip
    (r : redis) (key : string) (v : RefJson.json) (ttlSeconds : Z) :
  RefJson.wf v = true →
  let r' := snd (setCachedJson (J := RefJson.runtime) key v ttlSeconds r) in
  getCachedJson (J := RefJson.runtime) key r' = (Return v, r').
Proof.
  intros Hwf. simpl. rewrite CacheFacts.setCachedJson_run. simpl.
  apply (CacheFacts.getCachedJson_hit (J := RefJson.runtime) _ key (RefJson.write v) v).
  - apply (CacheFacts.GET_written (J := RefJson.runtime)).
  - apply RefJsonFacts.write_nonempty.
  - by apply RefJsonFacts.parse_write.
Qed.

(** An empty payload is falsy: it reads as [null] and the key stays. *)
Example empty_payload_is_kept :
  let r := SET "k" "" (Redis 1000 ∅) in
  getCachedJson (J := RefJson.runtime) "k" r = (Return RefJson.JNull, r).
Proof. vm_compute. done. Qed.

(** ** Configuration *)

Module ConfigFacts.

Section Loader.
Context {Env : Type}.
Variable safeParse : Config.environment → Config.SafeParseResult Env.
Local Abbreviation loadConfig := (Config.loadConfig safeParse).

Lemma loadConfig_cached p config :
  Config.cachedConfig p = Some config → loadConfig p = (Return config, p).
Proof. intros H. unfold Config.loadConfig. by rewrite H. Qed.

Lemma loadConfig_Return p config p' :
  loadConfig p = (Return config, p') →
  Config.cachedConfig p' = Some config ∧ Config.env p' = Config.env p.
Proof.
  unfold Config.loadConfig.
  destruct (Config.cachedConfig p) as [c|] eqn:Hc.
  - intros [= <- <-]. done.
  - destruct (safeParse (Config.env p)); intros [= <- <-]; done.
Qed.

Lemma loadConfig_Throw p e p' :
  loadConfig p = (Throw e, p') →
  p' = p ∧ Config.cachedConfig p = None
  ∧ ∃ issues, safeParse (Config.env p) = Config.SafeParseFailure issues
              ∧ e = Error (Config.invalid_message issues).
Proof.
  unfold Config.loadConfig.
  destruct (Config.cachedConfig p) as [c|] eqn:Hc; [discriminate|].
  destruct (safeParse (Config.env p)) as [d|issues] eqn:Hp; [discriminate|].
  intros [= <- <-]. eauto.
Qed.

Lemma reload_cached envs p config :
  Config.cachedConfig p = Some config →
  Config.reload safeParse envs p
  = (replicate (length envs) (Return config),
     Config.setenv (List.last envs (Config.env p)) p).
Proof.
  revert p. induction envs as [|e envs IH]; intros p Hc.
  - simpl. by destruct p.
  - cbn [Config.reload].
    rewrite (loadConfig_cached (Config.setenv e p) config) by done.
    rewrite (IH (Config.setenv e p)) by done.
    cbn [length replicate]. f_equal.
    unfold Config.setenv; simpl. f_equal.
    destruct envs as [|e' envs]; [done|].
    clear. revert e'. induction envs as [|e'' envs IH]; intros e'; [done|].
    apply (IH e'').
Qed.

End Loader.

End ConfigFacts.

(** C10. [loadConfig] is memoized. With nothing cached it parses the
    environment: on success it caches and returns the configuration, on
    failure it throws and leaves the process as it was. After a call
    that returned a configuration, every later call returns that same
    configuration, whatever the environment has become in between, and
    leaves the cache as it is; once [resetConfigCache] has run, the next
    call parses the environment of that moment afresh. A call that
    throws leaves the process as it was, with nothing cached. *)
Theorem loadConfig_memoized_until_reset
    {Env : Type} (safeParse : Config.environment → Config.SafeParseResult Env)
    (p : Config.process Env) :
  (Config.cachedConfig p = None →
   Config.loadConfig safeParse p
   = match safeParse (Config.env p) with
     | Config.SafeParseSuccess data =>
         (Return data, Config.Process (Config.env p) (Some data))
     | Config.SafeParseFailure issues =>
         (Throw (Error (Config.invalid_message issues)), p)
     end)
  ∧ (∀ config p1,
       Config.loadConfig safeParse p = (Return config, p1) →
       (∀ envs,
          Config.reload safeParse envs p1
          = (replicate (length envs) (Return config),
             Config.setenv (List.last envs (Config.env p1)) p1))
       ∧ (∀ e,
          Config.loadConfig safeParse (Config.setenv e (Config.resetConfigCache p1))
          = match safeParse e with
            | Config.SafeParseSuccess data =>
                (Return data, Config.Process e (Some data))
            | Config.SafeParseFailure issues =>
                (Throw (Error (Config.invalid_message issues)), Config.Process e None)
            end))
  ∧ (∀ e p1,
       Config.loadConfig safeParse p = (Throw e, p1) →
       p1 = p ∧ Config.cachedConfig p1 = None).
Proof.
  split; [|split].
  - intros Hnone. unfold Config.loadConfig. rewrite Hnone.
    by destruct (safeParse (Config.env p)).
  - intros config p1 Hload.
    destruct (ConfigFacts.loadConfig_Return _ _ _ _ Hload) as [Hc _].
    split.
    + intros envs. by apply ConfigFacts.reload_cached.
    + intros e. unfold Config.loadConfig; simpl.
      by destruct (safeParse e).
  - intros e p1 Hload.
    destruct (ConfigFacts.loadConfig_Throw _ _ _ _ Hload) as (-> & Hc & _).
    done.
Qed.

Lemma loadConfig_memoized_witness :
  let e0 : Config.environment :=
    <["DATABASE_URL" := "postgres://db/content"]>
      (<["REDIS_URL" := "redis://cache:6379"]> ∅) in
  let config :=
    {| Config.RefSchema.NODE_ENV := "development";
       Config.RefSchema.HTTP_HOST := "0.0.0.0";
       Config.RefSchema.DATABASE_URL := "postgres://db/content";
       Config.RefSchema.REDIS_URL := "redis://cache:6379" |} in
  let p1 := Config.Process e0 (Some config) in
  Config.reload Config.RefSchema.safeParse
    [∅; <["NODE_ENV" := "staging"]> e0] p1
  = ([Return config; Return config],
     Config.setenv (<["NODE_ENV" := "staging"]> e0) p1).
Proof.
  refine (proj1 (proj1 (proj2 (loadConfig_memoized_until_reset
                                 Config.RefSchema.safeParse
                                 (Config.Process
                                    (<["DATABASE_URL" := "postgres://db/content"]>
                                       (<["REDIS_URL" := "redis://cache:6379"]> ∅))
                                    None))) _ _ _) _).
  vm_compute. reflexivity.
Defined.

(** The environment of the witness, emptied: the call throws, naming
    the two required fields, and caches nothing. *)
Example loadConfig_empty_environment :
  Config.loadConfig Config.RefSchema.safeParse (Config.Process ∅ None)
  = (Throw (Error "ContentService configuration invalid: DATABASE_URL: Required; REDIS_URL: Required"),
     Config.Process ∅ None).
Proof. vm_compute. reflexivity. Qed.

(** ** The trending aggregator *)

Module TrendingFacts.
Import Trending.
Local Open Scope Qc_scope.

Lemma codes_inj a b : codes a = codes b → a = b.
Proof.
  unfold codes. intros H.
  rewrite <-(string_of_list_ascii_of_string a), <-(string_of_list_ascii_of_string b).
  f_equal. revert H.
  generalize (list_ascii_of_string a) (list_ascii_of_string b).
  induction l as [|x l IH]; intros [|y l']; simpl; try done.
  intros [= Hxy Hl]. f_equal; [|by apply IH].
  by rewrite <-(ascii_nat_embedding x), <-(ascii_nat_embedding y), Hxy.
Qed.

Lemma id_lt_irrefl a : ¬ id_lt a a.
Proof. unfold id_lt. apply irreflexivity, _. Qed.

Lemma id_lt_trans a b c : id_lt a b → id_lt b c → id_lt a c.
Proof. unfold id_lt. apply transitivity. Qed.

Lemma id_trichotomy a b : id_lt a b ∨ a = b ∨ id_lt b a.
Proof.
  unfold id_lt.
  destruct (trichotomyT lexico (codes a) (codes b)) as [[?|Heq]|?]; auto.
  right; left. by apply codes_inj.
Qed.

#[global] Instance ranks_before_total : Total ranks_before.
Proof.
  intros [a sa] [b sb]. unfold ranks_before; simpl.
  destruct (Qclt_le_dec sb sa) as [?|Hle]; [by left; left|].
  destruct (Qclt_le_dec sa sb) as [?|Hle']; [by right; left|].
  assert (sa = sb) as -> by (by apply Qcle_antisym).
  destruct (id_trichotomy a b) as [?|[->|?]]; auto.
Qed.

#[global] Instance ranks_before_trans : Transitive ranks_before.
Proof.
  intros [a sa] [b sb] [c sc]. unfold ranks_before; simpl.
  intros [H1|[-> H1]] [H2|[-> H2]].
  - left. by eapply Qclt_trans.
  - by left.
  - by left.
  - right. split; [done|].
    destruct H1 as [->|H1]; [done|]. destruct H2 as [<-|H2]; [by right|].
    right. by eapply id_lt_trans.
Qed.

#[global] Instance ranks_before_antisym : AntiSymm (=) ranks_before.
Proof.
  intros [a sa] [b sb]. unfold ranks_before; simpl.
  intros [H1|[-> H1]] [H2|[E2 H2]].
  - destruct (Qclt_not_eq _ _ (Qclt_trans _ _ _ H1 H2)). done.
  - subst. by destruct (Qclt_not_eq _ _ H1).
  - by destruct (Qclt_not_eq _ _ H2).
  - destruct H1 as [->|H1]; [done|]. destruct H2 as [->|H2]; [done|].
    destruct (id_lt_irrefl a). by eapply id_lt_trans.
Qed.

(** In a list sorted by a transitive order, an earlier element is
    related to every later one. *)
Lemma StronglySorted_lookup_lt {A} (R : relation A) (l : list A) i j x y :
  StronglySorted R l → (i < j)%nat → l !! i = Some x → l !! j = Some y → R x y.
Proof.
  intros Hs. revert i j. induction Hs as [|z l Hs IH Hall]; intros i j Hij Hi Hj.
  - done.
  - destruct j as [|j]; [lia|]. destruct i as [|i]; simpl in *.
    + injection Hi as ->. rewrite Forall_forall in Hall.
      apply Hall. by eapply list_elem_of_lookup_2.
    + apply (IH i j); [lia|done..].
Qed.

Lemma view_sorted st : StronglySorted ranks_before (view st).
Proof. apply StronglySorted_merge_sort; apply _. Qed.

Lemma view_perm st : view st ≡ₚ map_to_list (ranked st).
Proof. apply merge_sort_Permutation. Qed.

Lemma view_elem st a sc :
  (a, sc) ∈ view st ↔ ranked st !! a = Some sc.
Proof. rewrite view_perm. apply elem_of_map_to_list. Qed.

Lemma view_NoDup st : NoDup (view st).*1.
Proof. rewrite view_perm. apply NoDup_fst_map_to_list. Qed.

Lemma view_score st i a :
  (view st).*1 !! i = Some a →
  view st !! i = Some (a, scoreFor st a) ∧ is_Some (ranked st !! a).
Proof.
  rewrite list_lookup_fmap. destruct (view st !! i) as [[a' sc]|] eqn:Hi; [|done].
  simpl. intros [= ->].
  assert (ranked st !! a = Some sc) as Hsc.
  { apply view_elem. by eapply list_elem_of_lookup_2. }
  unfold scoreFor. rewrite Hsc. eauto.
Qed.

(** Of two positions of the view, the earlier holds the higher
    score, or the same score and the lower content id. *)
Lemma view_strict st i j a b :
  (i < j)%nat → (view st).*1 !! i = Some a → (view st).*1 !! j = Some b →
  scoreFor st b < scoreFor st a
  ∨ (scoreFor st a = scoreFor st b ∧ id_lt a b).
Proof.
  intros Hij Ha Hb.
  assert (a ≠ b) as Hne.
  { intros ->. pose proof (NoDup_lookup _ _ _ _ (view_NoDup st) Ha Hb). lia. }
  destruct (view_score _ _ _ Ha) as [Ha' _], (view_score _ _ _ Hb) as [Hb' _].
  pose proof (StronglySorted_lookup_lt _ _ _ _ _ _ (view_sorted st) Hij Ha' Hb') as HR.
  unfold ranks_before in HR; simpl in HR.
  destruct HR as [?|[? [?|?]]]; [by left|done|by right].
Qed.

Lemma merge_sort_enumeration (l1 l2 : list (string * Qc)) :
  l1 ≡ₚ l2 → merge_sort ranks_before l1 = merge_sort ranks_before l2.
Proof.
  intros Hp. apply (StronglySorted_unique ranks_before).
  - apply StronglySorted_merge_sort; apply _.
  - apply StronglySorted_merge_sort; apply _.
  - by rewrite !merge_sort_Permutation.
Qed.

Lemma ZINCRBY_lookup delta member z id :
  default 0 (ZINCRBY delta member z !! id)
  = if decide (member = id) then default 0 (z !! id) + delta
    else default 0 (z !! id).
Proof.
  unfold ZINCRBY. destruct (decide (member = id)) as [->|Hne].
  - by rewrite lookup_insert_eq.
  - by rewrite lookup_insert_ne.
Qed.

Lemma scoreFor_applyEvent w st e id :
  scoreFor (applyEvent w st e) id
  = if decide (contentId e = id) then scoreFor st id + increment w e
    else scoreFor st id.
Proof. unfold scoreFor, applyEvent; simpl. apply ZINCRBY_lookup. Qed.

Lemma ZINCRBY_comm d1 m1 d2 m2 z :
  ZINCRBY d1 m1 (ZINCRBY d2 m2 z) = ZINCRBY d2 m2 (ZINCRBY d1 m1 z).
Proof.
  apply map_eq. intros k. unfold ZINCRBY.
  destruct (decide (m1 = m2)) as [->|Hne].
  - rewrite !lookup_insert_eq; simpl.
    destruct (decide (m2 = k)) as [->|Hk].
    + rewrite !lookup_insert_eq. f_equal. ring.
    + by rewrite !lookup_insert_ne.
  - rewrite (lookup_insert_ne _ m2 m1), (lookup_insert_ne _ m1 m2) by done.
    destruct (decide (m1 = k)) as [->|Hk1].
    + rewrite lookup_insert_eq, lookup_insert_ne, lookup_insert_eq by done. done.
    + rewrite (lookup_insert_ne _ m1 k) by done.
      destruct (decide (m2 = k)) as [->|Hk2].
      * by rewrite !lookup_insert_eq.
      * by rewrite !lookup_insert_ne.
Qed.

End TrendingFacts.

(** C3. [topTrending(limit)], for every limit and every state of the
    ranked set: of two content ids it returns, the earlier has the higher
    score, or the same score and the lower content id; the ids it leaves
    out rank after every id it returns; and the result is the same list
    whatever order the store enumerates its entries in, so repeated calls
    on the same state agree. *)
Theorem topTrending_descending_score_then_ascending_id
    (limit : nat) (st : Trending.store) :
  let top := Trending.topTrending limit st in
  (∀ i j a b,
     (i < j)%nat → top !! i = Some a → top !! j = Some b →
     (Trending.scoreFor st b < Trending.scoreFor st a)%Qc
     ∨ (Trending.scoreFor st a = Trending.scoreFor st b ∧ Trending.id_lt a b))
  ∧ (∀ a b,
       a ∈ top → b ∉ top → is_Some (Trending.ranked st !! b) →
       (Trending.scoreFor st b < Trending.scoreFor st a)%Qc
       ∨ (Trending.scoreFor st a = Trending.scoreFor st b ∧ Trending.id_lt a b))
  ∧ length top = (limit `min` size (Trending.ranked st))%nat
  ∧ (∀ l,
       l ≡ₚ map_to_list (Trending.ranked st) →
       take limit (merge_sort Trending.ranks_before l).*1 = top).
Proof.
  simpl. unfold Trending.topTrending. repeat split.
  - intros i j a b Hij Ha Hb.
    apply lookup_take_Some in Ha as [Ha _], Hb as [Hb _].
    by eapply TrendingFacts.view_strict.
  - intros a b Ha Hb [sc Hsc].
    apply elem_of_take in Ha as (i & Ha & Hi).
    assert (b ∈ (Trending.view st).*1) as Hin.
    { apply list_elem_of_fmap. exists (b, sc). split; [done|].
      by apply TrendingFacts.view_elem. }
    apply list_elem_of_lookup in Hin as [j Hj].
    assert (limit ≤ j)%nat as Hlj.
    { destruct (decide (limit ≤ j)%nat); [done|]. destruct Hb.
      apply elem_of_take. exists j. split; [done|lia]. }
    eapply (TrendingFacts.view_strict st i j); [lia|done..].
  - rewrite length_take, length_fmap. unfold Trending.view.
    rewrite merge_sort_Permutation, length_map_to_list. done.
  - intros l Hl. unfold Trending.view.
    by rewrite (TrendingFacts.merge_sort_enumeration _ _ Hl).
Qed.

Lemma topTrending_order_witness :
  let st :=
    Trending.Store
      (<["ep-b" := Qc_of_Z 3]> (<["ep-a" := Qc_of_Z 3]> (<["ep-c" := Qc_of_Z 5]> ∅)))
      ∅ in
  (Trending.scoreFor st "ep-b" < Trending.scoreFor st "ep-a")%Qc
  ∨ (Trending.scoreFor st "ep-a" = Trending.scoreFor st "ep-b"
     ∧ Trending.id_lt "ep-a" "ep-b").
Proof.
  apply (proj1 (topTrending_descending_score_then_ascending_id 3
                  (Trending.Store
                     (<["ep-b" := Qc_of_Z 3]>
                        (<["ep-a" := Qc_of_Z 3]> (<["ep-c" := Qc_of_Z 5]> ∅)))
                     ∅))
           1%nat 2%nat "ep-a" "ep-b").
  - lia.
  - vm_compute. reflexivity.
  - vm_compute. reflexivity.
Defined.

(** The store of the witness: the tie between [ep-a] and [ep-b] is
    broken by the content id, at every limit. *)
Example topTrending_tie :
  let st :=
    Trending.Store
      (<["ep-b" := Qc_of_Z 3]> (<["ep-a" := Qc_of_Z 3]> (<["ep-c" := Qc_of_Z 5]> ∅)))
      ∅ in
  Trending.topTrending 3 st = ["ep-c"; "ep-a"; "ep-b"]
  ∧ Trending.topTrending 2 st = ["ep-c"; "ep-a"]
  ∧ Trending.topTrending 0 st = [].
Proof. vm_compute. done. Qed.

(** C4. [applyMetrics] does not deduplicate: a score that is zero and
    receives the same event twice, in one call or in two, ends at twice
    the score that one application gives. *)
Theorem applyMetrics_same_event_twice_doubles
    (w : Trending.Weights) (e : Trending.MetricsEvent) (st : Trending.store) :
  Trending.scoreFor st (Trending.contentId e) = 0%Qc →
  Trending.scoreFor (Trending.applyMetrics w [e; e] st) (Trending.contentId e)
  = (2 * Trending.scoreFor (Trending.applyMetrics w [e] st) (Trending.contentId e))%Qc
  ∧ Trending.scoreFor
      (Trending.applyMetrics w [e] (Trending.applyMetrics w [e] st))
      (Trending.contentId e)
    = (2 * Trending.scoreFor (Trending.applyMetrics w [e] st) (Trending.contentId e))%Qc
  ∧ Trending.scoreFor (Trending.applyMetrics w [e] st) (Trending.contentId e)
    = Trending.increment w e.
Proof.
  intros Hzero. unfold Trending.applyMetrics; simpl.
  rewrite !TrendingFacts.scoreFor_applyEvent.
  rewrite !decide_True by done. rewrite Hzero.
  repeat split; ring.
Qed.

Lemma applyMetrics_same_event_twice_witness :
  let w := {| Trending.w_views := Qc_of_Z 1; Trending.w_likes := Qc_of_Z 3;
              Trending.w_completions := Qc_of_Z 2;
              Trending.w_rating := Q2Qc (1 # 2) |} in
  let e := {| Trending.contentId := "ep-a"; Trending.views := 10;
              Trending.likes := 2; Trending.completions := 1;
              Trending.rating := Some (Qc_of_Z 4) |} in
  let st := Trending.Store ∅ ∅ in
  Trending.scoreFor (Trending.applyMetrics w [e; e] st) "ep-a"
  = (2 * Trending.scoreFor (Trending.applyMetrics w [e] st) "ep-a")%Qc
  ∧ Trending.scoreFor
      (Trending.applyMetrics w [e] (Trending.applyMetrics w [e] st)) "ep-a"
    = (2 * Trending.scoreFor (Trending.applyMetrics w [e] st) "ep-a")%Qc
  ∧ Trending.scoreFor (Trending.applyMetrics w [e] st) "ep-a"
    = Trending.increment w e.
Proof.
  apply (applyMetrics_same_event_twice_doubles
           {| Trending.w_views := Qc_of_Z 1; Trending.w_likes := Qc_of_Z 3;
              Trending.w_completions := Qc_of_Z 2;
              Trending.w_rating := Q2Qc (1 # 2) |}
           {| Trending.contentId := "ep-a"; Trending.views := 10;
              Trending.likes := 2; Trending.completions := 1;
              Trending.rating := Some (Qc_of_Z 4) |}
           (Trending.Store ∅ ∅)).
  reflexivity.
Defined.

(** C8. Events for two different content ids, applied in either order,
    in one call or in two: every score ends the same, and each of the
    two ids has gained the increment of its own event. *)
Theorem applyMetrics_distinct_ids_commute
    (w : Trending.Weights) (e1 e2 : Trending.MetricsEvent) (st : Trending.store) :
  Trending.contentId e1 ≠ Trending.contentId e2 →
  (∀ id,
     Trending.scoreFor (Trending.applyMetrics w [e1; e2] st) id
     = Trending.scoreFor (Trending.applyMetrics w [e2; e1] st) id)
  ∧ (∀ id,
       Trending.scoreFor
         (Trending.applyMetrics w [e2] (Trending.applyMetrics w [e1] st)) id
       = Trending.scoreFor
           (Trending.applyMetrics w [e1] (Trending.applyMetrics w [e2] st)) id)
  ∧ Trending.scoreFor (Trending.applyMetrics w [e1; e2] st) (Trending.contentId e1)
    = (Trending.scoreFor st (Trending.contentId e1) + Trending.increment w e1)%Qc
  ∧ Trending.scoreFor (Trending.applyMetrics w [e1; e2] st) (Trending.contentId e2)
    = (Trending.scoreFor st (Trending.contentId e2) + Trending.increment w e2)%Qc.
Proof.
  intros Hne. unfold Trending.applyMetrics; simpl.
  assert (∀ id,
    Trending.scoreFor (Trending.applyEvent w (Trending.applyEvent w st e1) e2) id
    = Trending.scoreFor (Trending.applyEvent w (Trending.applyEvent w st e2) e1) id)
    as Hcomm.
  { intros id. unfold Trending.scoreFor, Trending.applyEvent; simpl.
    by rewrite TrendingFacts.ZINCRBY_comm. }
  repeat split.
  - exact Hcomm.
  - exact Hcomm.
  - rewrite !TrendingFacts.scoreFor_applyEvent.
    rewrite decide_False by done. by rewrite decide_True.
  - rewrite !TrendingFacts.scoreFor_applyEvent.
    rewrite decide_True by done. by rewrite decide_False.
Qed.

Lemma applyMetrics_distinct_ids_witness :
  let w := {| Trending.w_views := Qc_of_Z 1; Trending.w_likes := Qc_of_Z 3;
              Trending.w_completions := Qc_of_Z 2;
              Trending.w_rating := Q2Qc (1 # 2) |} in
  let e1 := {| Trending.contentId := "ep-a"; Trending.views := 10;
               Trending.likes := 2; Trending.completions := 1;
               Trending.rating := None |} in
  let e2 := {| Trending.contentId := "ep-b"; Trending.views := 1;
               Trending.likes := 0; Trending.completions := 0;
               Trending.rating := Some (Qc_of_Z 5) |} in
  let st := Trending.Store (<["ep-a" := Qc_of_Z 7]> ∅) ∅ in
  Trending.scoreFor (Trending.applyMetrics w [e1; e2] st) "ep-a"
  = Trending.scoreFor (Trending.applyMetrics w [e2; e1] st) "ep-a"
  ∧ Trending.scoreFor (Trending.applyMetrics w [e1; e2] st) "ep-b"
    = Trending.scoreFor (Trending.applyMetrics w [e2; e1] st) "ep-b".
Proof.
  simpl.
  split;
    apply (proj1 (applyMetrics_distinct_ids_commute
                    {| Trending.w_views := Qc_of_Z 1; Trending.w_likes := Qc_of_Z 3;
                       Trending.w_completions := Qc_of_Z 2;
                       Trending.w_rating := Q2Qc (1 # 2) |}
                    {| Trending.contentId := "ep-a"; Trending.views := 10;
                       Trending.likes := 2; Trending.completions := 1;
                       Trending.rating := None |}
                    {| Trending.contentId := "ep-b"; Trending.views := 1;
                       Trending.likes := 0; Trending.completions := 0;
                       Trending.rating := Some (Qc_of_Z 5) |}
                    (Trending.Store (<["ep-a" := Qc_of_Z 7]> ∅) ∅)
                    ltac:(discriminate))).
Defined.

(** ** The data quality monitor and the routes *)

Module RouteFacts.
Import Fastify.

Lemma firstIssue_first ref clean bad rest issue :
  Forall (λ item, Catalog.checkItem ref item = None) clean →
  Catalog.checkItem ref bad = Some issue →
  Catalog.firstIssue ref (clean ++ bad :: rest) = Some issue.
Proof.
  intros Hclean Hbad. induction Hclean as [|item clean Hitem _ IH]; simpl.
  - by rewrite Hbad.
  - by rewrite Hitem.
Qed.

(** An issue the monitor reports is the issue of an item of the list,
    and no item before that one has an issue. *)
Lemma firstIssue_Some ref l issue :
  Catalog.firstIssue ref l = Some issue →
  ∃ clean bad rest,
    l = clean ++ bad :: rest
    ∧ Forall (λ item, Catalog.checkItem ref item = None) clean
    ∧ Catalog.checkItem ref bad = Some issue.
Proof.
  induction l as [|item l IH]; simpl; [done|].
  destruct (Catalog.checkItem ref item) as [q|] eqn:Hitem.
  - intros [= ->]. exists [], item, l. by repeat split.
  - intros (clean & bad & rest & -> & Hclean & Hbad)%IH.
    exists (item :: clean), bad, rest. repeat split; [|done].
    by constructor.
Qed.

Lemma validateItems_Throw ref l e :
  Catalog.validateItems ref l = Throw e →
  ∃ issue, e = CatalogConsistencyError issue
           ∧ Catalog.firstIssue ref l = Some issue.
Proof.
  unfold Catalog.validateItems.
  destruct (Catalog.firstIssue ref l) as [issue|]; [|done].
  intros [= <-]. eauto.
Qed.

Lemma catchQualityFailure_500 logMessage issue :
  respond (ViewerRoutes.catchQualityFailure logMessage (CatalogConsistencyError issue))
  = Reply 500 [] (QualityFailure "Catalog data quality issue" (kind issue)).
Proof. done. Qed.

Lemma catchRegisterFailure_NOT_FOUND episode logMessage replyMessage message :
  InternalRoutes.catchRegisterFailure episode logMessage replyMessage
    (CatalogServiceError "NOT_FOUND" message)
  = (Return (Reply 404 [] (Message message)), []).
Proof. done. Qed.

Lemma catchRegisterFailure_FAILED_PRECONDITION
    episode logMessage replyMessage message :
  InternalRoutes.catchRegisterFailure episode logMessage replyMessage
    (CatalogServiceError "FAILED_PRECONDITION" message)
  = (Return (Reply 412 [] (Message message)), []).
Proof. done. Qed.

(** The categories route has no [catch]: an exception of the service
    leaves the handler and the framework answers it. *)
Lemma categoriesHandler_rethrows config service query e :
  ViewerRoutes.listCategories service query = Throw e →
  ViewerRoutes.categoriesHandler config service query = (Throw e, []).
Proof. intros H. unfold ViewerRoutes.categoriesHandler. by rewrite H. Qed.

End RouteFacts.

(** C2. A data-quality violation in a viewer catalog query. The monitor
    is fail-fast: when an item of the composed feed has an issue and no
    item before it has one, [getFeed] throws a [CatalogConsistencyError]
    that wraps that one issue, and it throws nothing else. Whenever the
    service throws a [CatalogConsistencyError], the feed, series detail
    and related series routes answer 500 with the kind of the issue in
    the body, and neither items nor cache headers. *)
Theorem quality_violation_fails_fast_and_answers_500
    (config : ViewerRoutes.RouteConfig) (ref : Catalog.Reference)
    (composeFeed : Catalog.FeedQuery → Catalog.FeedResult) :
  (∀ query clean bad rest issue,
     Catalog.items (composeFeed query) = (clean ++ bad :: rest)%list →
     Forall (λ item, Catalog.checkItem ref item = None) clean →
     Catalog.checkItem ref bad = Some issue →
     Catalog.getFeed ref composeFeed query = Throw (CatalogConsistencyError issue))
  ∧ (∀ query e,
       Catalog.getFeed ref composeFeed query = Throw e →
       ∃ clean bad rest issue,
         e = CatalogConsistencyError issue
         ∧ Catalog.items (composeFeed query) = (clean ++ bad :: rest)%list
         ∧ Forall (λ item, Catalog.checkItem ref item = None) clean
         ∧ Catalog.checkItem ref bad = Some issue)
  ∧ (∀ viewerCatalog query issue,
       ViewerRoutes.getFeed viewerCatalog query
         = Throw (CatalogConsistencyError issue) →
       Fastify.respond (ViewerRoutes.feedHandler config viewerCatalog query)
       = Fastify.Reply 500 []
           (Fastify.QualityFailure "Catalog data quality issue" (kind issue)))
  ∧ (∀ viewerCatalog slug issue,
       ViewerRoutes.getSeriesDetail viewerCatalog slug
         = Throw (CatalogConsistencyError issue) →
       Fastify.respond (ViewerRoutes.seriesDetailHandler config viewerCatalog slug)
       = Fastify.Reply 500 []
           (Fastify.QualityFailure "Catalog data quality issue" (kind issue)))
  ∧ (∀ viewerCatalog slug limit issue,
       ViewerRoutes.getRelatedSeries viewerCatalog slug limit
         = Throw (CatalogConsistencyError issue) →
       Fastify.respond
         (ViewerRoutes.relatedSeriesHandler config viewerCatalog slug limit)
       = Fastify.Reply 500 []
           (Fastify.QualityFailure "Catalog data quality issue" (kind issue))).
Proof.
  repeat split.
  - intros query clean bad rest issue Hitems Hclean Hbad.
    unfold Catalog.getFeed, Catalog.validateItems.
    by rewrite Hitems, (RouteFacts.firstIssue_first _ _ _ _ _ Hclean Hbad).
  - intros query e. unfold Catalog.getFeed.
    destruct (Catalog.validateItems ref _) as [|e'] eqn:Hv; [done|].
    intros [= ->].
    apply RouteFacts.validateItems_Throw in Hv as (issue & -> & Hfirst).
    apply RouteFacts.firstIssue_Some in Hfirst as (clean & bad & rest & ? & ? & ?).
    by exists clean, bad, rest, issue.
  - intros svc query issue H. unfold ViewerRoutes.feedHandler. by rewrite H.
  - intros svc slug issue H. unfold ViewerRoutes.seriesDetailHandler. by rewrite H.
  - intros svc slug limit issue H. unfold ViewerRoutes.relatedSeriesHandler.
    by rewrite H.
Qed.

Lemma quality_violation_witness :
  Catalog.getFeed Wiring.reference Wiring.feed
    {| Catalog.limit := 10; Catalog.cursor := None |}
  = Throw (CatalogConsistencyError
             (Catalog.issueOn FeedItemReferencesNonexistentSeries Wiring.orphan))
  ∧ Fastify.respond
      (ViewerRoutes.feedHandler Wiring.ttls Wiring.smallCatalog
         {| Catalog.limit := 10; Catalog.cursor := None |})
    = Fastify.Reply 500 []
        (Fastify.QualityFailure "Catalog data quality issue"
           FeedItemReferencesNonexistentSeries).
Proof.
  pose proof (quality_violation_fails_fast_and_answers_500
                Wiring.ttls Wiring.reference Wiring.feed)
    as (Hmonitor & _ & Hroute & _).
  assert (Catalog.getFeed Wiring.reference Wiring.feed
            {| Catalog.limit := 10; Catalog.cursor := None |}
          = Throw (CatalogConsistencyError
                     (Catalog.issueOn FeedItemReferencesNonexistentSeries
                        Wiring.orphan))) as Hthrow.
  { apply (Hmonitor _ [Wiring.episode1] Wiring.orphan [Wiring.episode1]).
    - reflexivity.
    - repeat constructor.
    - vm_compute. reflexivity. }
  split; [exact Hthrow|].
  apply (Hroute Wiring.smallCatalog _
           (Catalog.issueOn FeedItemReferencesNonexistentSeries Wiring.orphan)).
  exact Hthrow.
Defined.

(** C6. A slug that does not resolve to a series: [getSeriesDetail] and
    [getRelatedSeries] return the not-found sentinel, [null], and throw
    nothing; and whenever the service returns the sentinel, the series
    detail and related series routes answer 404, "Series not found". *)
Theorem unresolved_slug_is_sentinel_and_404
    (config : ViewerRoutes.RouteConfig) (ref : Catalog.Reference)
    (composeFeed : Catalog.FeedQuery → Catalog.FeedResult)
    (resolveSeries : string → option Catalog.SeriesDetailResult)
    (relatedTo : Catalog.Series → list Catalog.Series)
    (categories : Catalog.FeedQuery → list Fastify.Category * option string)
    (slug : string) (limit : N) :
  resolveSeries slug = None →
  let viewerCatalog :=
    Wiring.viewerCatalog ref composeFeed resolveSeries relatedTo categories in
  Catalog.getSeriesDetail ref resolveSeries slug = Return None
  ∧ Catalog.getRelatedSeries resolveSeries relatedTo slug limit = Return None
  ∧ ViewerRoutes.seriesDetailHandler config viewerCatalog slug
    = (Return (Fastify.Reply 404 [] (Fastify.Message "Series not found")), [])
  ∧ ViewerRoutes.relatedSeriesHandler config viewerCatalog slug limit
    = (Return (Fastify.Reply 404 [] (Fastify.Message "Series not found")), [])
  ∧ (∀ service,
       ViewerRoutes.getSeriesDetail service slug = Return None →
       Fastify.respond (ViewerRoutes.seriesDetailHandler config service slug)
       = Fastify.Reply 404 [] (Fastify.Message "Series not found"))
  ∧ (∀ service,
       ViewerRoutes.getRelatedSeries service slug limit = Return None →
       Fastify.respond (ViewerRoutes.relatedSeriesHandler config service slug limit)
       = Fastify.Reply 404 [] (Fastify.Message "Series not found")).
Proof.
  intros Hmiss viewerCatalog.
  assert (Catalog.getSeriesDetail ref resolveSeries slug = Return None) as Hdetail.
  { unfold Catalog.getSeriesDetail. by rewrite Hmiss. }
  assert (Catalog.getRelatedSeries resolveSeries relatedTo slug limit = Return None)
    as Hrelated.
  { unfold Catalog.getRelatedSeries. by rewrite Hmiss. }
  repeat split; try done.
  - unfold ViewerRoutes.seriesDetailHandler; simpl. by rewrite Hdetail.
  - unfold ViewerRoutes.relatedSeriesHandler; simpl. by rewrite Hrelated.
  - intros service H. unfold ViewerRoutes.seriesDetailHandler. by rewrite H.
  - intros service H. unfold ViewerRoutes.relatedSeriesHandler. by rewrite H.
Qed.

Lemma unresolved_slug_witness :
  Catalog.getSeriesDetail Wiring.reference Wiring.resolve "missing-slug" = Return None
  ∧ ViewerRoutes.seriesDetailHandler Wiring.ttls Wiring.smallCatalog "missing-slug"
    = (Return (Fastify.Reply 404 [] (Fastify.Message "Series not found")), [])
  ∧ ViewerRoutes.relatedSeriesHandler Wiring.ttls Wiring.smallCatalog "missing-slug" 5
    = (Return (Fastify.Reply 404 [] (Fastify.Message "Series not found")), []).
Proof.
  pose proof (unresolved_slug_is_sentinel_and_404
                Wiring.ttls Wiring.reference Wiring.feed Wiring.resolve
                (λ _, []) (λ _, ([], None)) "missing-slug" 5 eq_refl)
    as (Hdetail & _ & Hroute & Hrelated & _).
  exact (conj Hdetail (conj Hroute Hrelated)).
Defined.

(** The slug of the small catalog that does resolve: 200, the cache
    headers and the series. *)
Example resolved_slug_200 :
  Fastify.respond
    (ViewerRoutes.seriesDetailHandler Wiring.ttls Wiring.smallCatalog "show-a")
  = Fastify.Reply 200
      [("cache-control", "public, max-age=120"); ("x-cache", "miss")]
      (Fastify.SeriesBody Wiring.showA
         [ {| Catalog.seasonNumber := 1; Catalog.episodes := [Wiring.episode1] |} ]
         []).
Proof. vm_compute. reflexivity. Qed.

(** C7 as stated fails on the category route: a [FAILED_PRECONDITION]
    from [getCategoryById] is answered with 500, not 412. *)
Lemma category_FAILED_PRECONDITION_is_500 :
  InternalRoutes.getCategoryById Wiring.lockedCatalog "cat-1"
  = Throw (CatalogServiceError "FAILED_PRECONDITION" "Category is locked")
  ∧ Fastify.status
      (Fastify.respond (InternalRoutes.categoryHandler Wiring.lockedCatalog "cat-1"))
    = 500
  ∧ ¬ (∀ catalog id message,
         InternalRoutes.getCategoryById catalog id
         = Throw (CatalogServiceError "FAILED_PRECONDITION" message) →
         Fastify.status
           (Fastify.respond (InternalRoutes.categoryHandler catalog id))
         = 412).
Proof.
  split; [reflexivity|]. split; [reflexivity|].
  intros H.
  specialize (H Wiring.lockedCatalog "cat-1" "Category is locked" eq_refl).
  vm_compute in H. discriminate H.
Qed.

(** C7, amended. A [NOT_FOUND] from the system of record is answered
    with 404 by the category route and by both routes that register an
    asset; a [FAILED_PRECONDITION] from [registerEpisodeAsset] is
    answered with 412, with the message of the error; the category route
    answers every error other than [NOT_FOUND] with 500. *)
Theorem domain_errors_map_to_404_and_412
    (catalog : InternalRoutes.CatalogService) :
  (∀ id message,
     InternalRoutes.getCategoryById catalog id
       = Throw (CatalogServiceError "NOT_FOUND" message) →
     Fastify.respond (InternalRoutes.categoryHandler catalog id)
     = Fastify.Reply 404 [] (Fastify.HttpErrorBody 404 "Category not found"))
  ∧ (∀ id body message,
       InternalRoutes.registerEpisodeAsset catalog InternalRoutes.systemActorId
         {| Fastify.episodeId := id; Fastify.fields := body |}
         = Throw (CatalogServiceError "NOT_FOUND" message) →
       Fastify.respond (InternalRoutes.registerAssetHandler catalog id body)
       = Fastify.Reply 404 [] (Fastify.Message message))
  ∧ (∀ id body message,
       InternalRoutes.registerEpisodeAsset catalog InternalRoutes.systemActorId
         {| Fastify.episodeId := id; Fastify.fields := body |}
         = Throw (CatalogServiceError "FAILED_PRECONDITION" message) →
       Fastify.respond (InternalRoutes.registerAssetHandler catalog id body)
       = Fastify.Reply 412 [] (Fastify.Message message))
  ∧ (∀ event message,
       InternalRoutes.registerEpisodeAsset catalog InternalRoutes.systemActorId event
         = Throw (CatalogServiceError "NOT_FOUND" message) →
       Fastify.respond (InternalRoutes.mediaProcessedHandler catalog event)
       = Fastify.Reply 404 [] (Fastify.Message message))
  ∧ (∀ event message,
       InternalRoutes.registerEpisodeAsset catalog InternalRoutes.systemActorId event
         = Throw (CatalogServiceError "FAILED_PRECONDITION" message) →
       Fastify.respond (InternalRoutes.mediaProcessedHandler catalog event)
       = Fastify.Reply 412 [] (Fastify.Message message))
  ∧ (∀ id e,
       InternalRoutes.getCategoryById catalog id = Throw e →
       (∀ message, e ≠ CatalogServiceError "NOT_FOUND" message) →
       Fastify.respond (InternalRoutes.categoryHandler catalog id)
       = Fastify.Reply 500 [] (Fastify.HttpErrorBody 500 "Unable to fetch category")).
Proof.
  repeat split.
  - intros id message H. unfold InternalRoutes.categoryHandler. by rewrite H.
  - intros id body message H. unfold InternalRoutes.registerAssetHandler.
    by rewrite H, RouteFacts.catchRegisterFailure_NOT_FOUND.
  - intros id body message H. unfold InternalRoutes.registerAssetHandler.
    by rewrite H, RouteFacts.catchRegisterFailure_FAILED_PRECONDITION.
  - intros event message H. unfold InternalRoutes.mediaProcessedHandler.
    by rewrite H, RouteFacts.catchRegisterFailure_NOT_FOUND.
  - intros event message H. unfold InternalRoutes.mediaProcessedHandler.
    by rewrite H, RouteFacts.catchRegisterFailure_FAILED_PRECONDITION.
  - intros id e H Hne. unfold InternalRoutes.categoryHandler. rewrite H.
    destruct e as [| | |code message|]; try done.
    destruct (decide (code = "NOT_FOUND")) as [->|]; [|done].
    by destruct (Hne message).
Qed.

Lemma domain_errors_witness :
  Fastify.respond (InternalRoutes.categoryHandler Wiring.emptyCatalog "cat-1")
  = Fastify.Reply 404 [] (Fastify.HttpErrorBody 404 "Category not found")
  ∧ Fastify.respond
      (InternalRoutes.registerAssetHandler Wiring.emptyCatalog "ep-1" Wiring.noFields)
    = Fastify.Reply 404 [] (Fastify.Message "Episode not found")
  ∧ Fastify.respond
      (InternalRoutes.registerAssetHandler Wiring.emptyCatalog "ep-draft" Wiring.noFields)
    = Fastify.Reply 412 [] (Fastify.Message "Episode is not awaiting an asset")
  ∧ Fastify.respond (InternalRoutes.categoryHandler Wiring.lockedCatalog "cat-1")
    = Fastify.Reply 500 [] (Fastify.HttpErrorBody 500 "Unable to fetch category").
Proof.
  pose proof (domain_errors_map_to_404_and_412 Wiring.emptyCatalog)
    as (Hcat & Hnf & Hpre & _).
  pose proof (domain_errors_map_to_404_and_412 Wiring.lockedCatalog)
    as (_ & _ & _ & _ & _ & Hother).
  refine (conj _ (conj _ (conj _ _))).
  - exact (Hcat "cat-1" "Category not found" eq_refl).
  - exact (Hnf "ep-1" Wiring.noFields "Episode not found" eq_refl).
  - exact (Hpre "ep-draft" Wiring.noFields "Episode is not awaiting an asset" eq_refl).
  - apply (Hother "cat-1"
             (CatalogServiceError "FAILED_PRECONDITION" "Category is locked") eq_refl).
    intros message. discriminate.
Defined.

(* ===================================================================== *)
(** * Further properties of the cache store adapter                       *)
(* ===================================================================== *)

Module CacheMore.

Section Adapter.
Context `{J : JsonRuntime}.

Lemma getCachedJson_store (key : string) (r : redis) :
  snd (getCachedJson key r) = r
  ∨ (snd (getCachedJson key r) = DEL key r
     ∧ ∃ pl, GET key r = Some pl ∧ pl ≠ "" ∧ JSON_parse pl = None).
Proof.
  unfold getCachedJson, bind, redis_get, try_catch, json_parse.
  destruct (GET key r) as [pl|] eqn:Hget; simpl; [|by left].
  destruct (decide (pl = "")) as [->|Hne]; [by left|].
  destruct (JSON_parse pl) eqn:Hparse; [by left|].
  right. split; [done|]. by exists pl.
Qed.

Lemma live_DEL_ne (key k : string) (r : redis) :
  k ≠ key → live (DEL key r) k = live r k.
Proof. intros Hne. unfold live, DEL; simpl. by rewrite lookup_delete_ne. Qed.

Lemma GET_advance_written_ne (r : redis) (key k : string) (v : value)
    (ttlSeconds d : Z) :
  k ≠ key →
  GET k (advance d (written r key v ttlSeconds)) = GET k (advance d r).
Proof.
  intros Hne. unfold GET, live, advance, written; simpl.
  by rewrite lookup_insert_ne.
Qed.

End Adapter.

End CacheMore.

(** X1. [getCachedJson] leaves the clock and every other key as they
    are, expiry included, and it leaves the key it reads as it is unless
    the payload is non-empty and does not parse: an empty payload and a
    payload that parses stay in the store. *)
Theorem getCachedJson_frame
    `{J : JsonRuntime} (key : string) (r : redis) :
  let r' := snd (getCachedJson key r) in
  now r' = now r
  ∧ (∀ k, k ≠ key → db r' !! k = db r !! k)
  ∧ (∀ pl, GET key r = Some pl →
       pl = "" ∨ is_Some (JSON_parse pl) →
       r' = r).
Proof.
  simpl. destruct (CacheMore.getCachedJson_store key r) as [->|[-> (pl & Hget & Hne & Hparse)]].
  - done.
  - split; [done|]. split.
    + intros k Hk. unfold DEL; simpl. by rewrite lookup_delete_ne.
    + intros pl' Hget' Hok. rewrite Hget in Hget'. injection Hget' as <-.
      destruct Hok as [Hempty|[v Hv]]; [done|congruence].
Qed.

Lemma getCachedJson_frame_witness :
  let r := SET "a" "{not json" (SET "b" "[1,2]" (Redis 0 ∅)) in
  db (snd (getCachedJson (J := RefJson.runtime) "a" r)) !! "b" = db r !! "b".
Proof.
  refine (proj1 (proj2 (getCachedJson_frame (J := RefJson.runtime) "a"
                          (SET "a" "{not json" (SET "b" "[1,2]" (Redis 0 ∅)))))
            "b" _).
  discriminate.
Defined.

(** X2. Reading twice is reading once: a second [getCachedJson] of the
    same key, right after the first, returns what the first returned and
    leaves the store the first left, whatever the key held. *)
Theorem getCachedJson_idempotent
    `{J : JsonRuntime} (key : string) (r : redis) :
  getCachedJson key (snd (getCachedJson key r))
  = (fst (getCachedJson key r), snd (getCachedJson key r)).
Proof.
  destruct (GET key r) as [pl|] eqn:Hget.
  - destruct (decide (pl = "")) as [->|Hne].
    + assert (getCachedJson key r = (Return js_null, r)) as Hrun.
      { unfold getCachedJson, bind, redis_get. by rewrite Hget. }
      by rewrite Hrun; simpl; rewrite Hrun.
    + destruct (JSON_parse pl) as [v|] eqn:Hparse.
      * rewrite (CacheFacts.getCachedJson_hit r key pl v) by done. simpl.
        by rewrite (CacheFacts.getCachedJson_hit r key pl v).
      * assert (getCachedJson key r = (Return js_null, DEL key r)) as Hrun.
        { unfold getCachedJson, bind, redis_get, try_catch, json_parse.
          rewrite Hget, (CacheFacts.falsy_string_Some _ Hne). simpl.
          by rewrite Hparse. }
        rewrite Hrun. simpl.
        apply CacheFacts.getCachedJson_miss, CacheFacts.GET_DEL.
  - rewrite (CacheFacts.getCachedJson_miss r key) by done. simpl.
    by apply CacheFacts.getCachedJson_miss.
Qed.

(** X3. [setCachedJson] touches one key: under every other key a
    reader finds, at any later time, what it would have found without
    the write. *)
Theorem setCachedJson_frame
    `{J : JsonRuntime} (r : redis) (key k : string) (v : value)
    (ttlSeconds : Z) (d : N) :
  k ≠ key →
  GET k (advance (Z.of_N d) (snd (setCachedJson key v ttlSeconds r)))
  = GET k (advance (Z.of_N d) r).
Proof.
  intros Hne. rewrite CacheFacts.setCachedJson_run. simpl.
  by apply CacheMore.GET_advance_written_ne.
Qed.

Lemma setCachedJson_frame_witness :
  let r := SET_EX "series:show-a" "{}" 120 (Redis 1000 ∅) in
  GET "series:show-a"
    (advance 100 (snd (setCachedJson (J := RefJson.runtime)
                         "feed:10" (RefJson.JArr []) 60 r)))
  = GET "series:show-a" (advance 100 r).
Proof.
  apply (setCachedJson_frame (J := RefJson.runtime)
           (SET_EX "series:show-a" "{}" 120 (Redis 1000 ∅))
           "feed:10" "series:show-a" (RefJson.JArr []) 60 100%N).
  discriminate.
Defined.

(** X4. The last write wins, expiry included: two writes of a key in
    a row leave the store that the second alone would leave, so a write
    without expiry after a write with one makes the key permanent, and
    a write with an expiry restarts the time to live. *)
Theorem setCachedJson_last_write_wins
    `{J : JsonRuntime} (r : redis) (key : string) (v1 v2 : value)
    (ttl1 ttl2 : Z) :
  snd (setCachedJson key v2 ttl2 (snd (setCachedJson key v1 ttl1 r)))
  = snd (setCachedJson key v2 ttl2 r).
Proof.
  rewrite !CacheFacts.setCachedJson_run. simpl.
  unfold written; simpl. by rewrite insert_insert_eq.
Qed.

(** X5. A value written with a positive time to live is read back by
    [getCachedJson] until that many seconds have passed and is [null]
    from then on; a value written with [ttlSeconds <= 0] is read back at
    any later time. Reading leaves the store as it is in every case. *)
Theorem getCachedJson_after_ttl
    `{J : JsonRuntime} (r : redis) (key : string) (v : value)
    (ttlSeconds : Z) (d : N) :
  JSON_stringify v ≠ "" →
  JSON_parse (JSON_stringify v) = Some v →
  let later := advance (Z.of_N d) (snd (setCachedJson key v ttlSeconds r)) in
  getCachedJson key later
  = (Return (if decide (ttlSeconds > 0 ∧ ttlSeconds ≤ Z.of_N d)
             then js_null else v),
     later).
Proof.
  intros Hne Hparse later. subst later.
  rewrite CacheFacts.setCachedJson_run. simpl.
  pose proof (CacheFacts.GET_written_later r key v ttlSeconds (Z.of_N d)
                ltac:(lia)) as Hget.
  destruct (decide (ttlSeconds > 0 ∧ ttlSeconds ≤ Z.of_N d)).
  - by apply CacheFacts.getCachedJson_miss.
  - by eapply CacheFacts.getCachedJson_hit.
Qed.

Lemma getCachedJson_after_ttl_witness :
  let v := RefJson.JArr [RefJson.JStr "ep-1"] in
  let later :=
    advance 60 (snd (setCachedJson (J := RefJson.runtime) "feed:10" v 60
                       (Redis 1000 ∅))) in
  getCachedJson (J := RefJson.runtime) "feed:10" later
  = (Return RefJson.JNull, later).
Proof.
  apply (getCachedJson_after_ttl (J := RefJson.runtime) (Redis 1000 ∅)
           "feed:10" (RefJson.JArr [RefJson.JStr "ep-1"]) 60 60%N).
  - vm_compute. discriminate.
  - vm_compute. reflexivity.
Defined.

(* ===================================================================== *)
(** * The role check of the admin routes                                  *)
(* ===================================================================== *)

Module AdminFacts.
Import AdminRoutes.

Lemma split_runs_elem (l : list ascii) :
  ∀ piece in_run t,
    Forall nonsep piece → (in_run = true → piece = []) →
    (t ∈ split_runs l piece in_run ∧ t ≠ [])
    ↔ (t ≠ [] ∧ Forall nonsep t ∧ (at_start l piece t ∨ inside l t)).
Proof.
  induction l as [|c r IH]; intros piece in_run t Hpiece Hrun.
  - cbn [split_runs]. rewrite list_elem_of_singleton. split.
    + intros [-> Hne]. split_and!; [done..|]. left.
      exists [], []. rewrite app_nil_r. auto.
    + intros (Hne & Hns & [(u & post & -> & Hl & _)|(pre & post & Hl & (pre' & x & -> & _) & _)]).
      * symmetry in Hl. apply app_eq_nil in Hl as [-> ->].
        rewrite app_nil_r in *. done.
      * by destruct pre'.
  - cbn [split_runs]. destruct (separator c) eqn:Hc.
    + specialize (IH [] true t ltac:(constructor) ltac:(done)).
      split.
      * intros [Hin Hne].
        assert (t = piece ∧ in_run = false ∨ t ∈ split_runs r [] true) as [[-> _]|Hin'].
        { destruct in_run; [by right|]. apply elem_of_cons in Hin. tauto. }
        -- split_and!; [done..|]. left. exists [], (c :: r).
           rewrite app_nil_r. split_and!; [done..|]. right. eauto.
        -- destruct (proj1 IH (conj Hin' Hne)) as (_ & Hns & Hcase).
           split_and!; [done..|]. right.
           destruct Hcase as [(u & post & Ht & Hr & Hpost)|(pre & post & Hr & (pre' & x & -> & Hx) & Hpost)].
           ++ simpl in Ht. subst u. exists [c], post. subst r.
              split_and!; [done| |done]. by exists [], c.
           ++ exists (c :: pre' ++ [x]), post. subst r.
              split_and!; [done| |done]. by exists (c :: pre'), x.
      * intros (Hne & Hns & Hcase). split; [|done].
        assert (t = piece ∧ in_run = false ∨ t ∈ split_runs r [] true) as Hin.
        { destruct Hcase as [(u & post & -> & Hl & Hpost)|(pre & post & Hl & (pre' & x & -> & Hx) & Hpost)].
          - destruct u as [|y u].
            + left. rewrite app_nil_r. split; [done|].
              destruct in_run; [|done]. rewrite Hrun in Hne by done. done.
            + injection Hl as <- ->. apply Forall_app in Hns as [_ Hns].
              apply Forall_cons in Hns as [Hy _]. unfold nonsep in Hy. congruence.
          - right. apply IH. split_and!; [done..|].
            destruct pre' as [|y pre'].
            + injection Hl as <- ->. left. exists t, post. by split_and!.
            + injection Hl as <- ->. right. exists (pre' ++ [x]), post.
              split_and!; [done| |done]. by exists pre', x. }
        destruct Hin as [[-> ->]|Hin]; [by left|].
        destruct in_run; [done|by right].
    + assert (Forall nonsep (piece ++ [c])) as Hpiece'.
      { apply Forall_app. split; [done|]. by constructor. }
      specialize (IH (piece ++ [c]) false t Hpiece' ltac:(done)).
      rewrite IH. split.
      * intros (Hne & Hns & Hcase). split_and!; [done..|].
        destruct Hcase as [(u & post & -> & -> & Hpost)|(pre & post & -> & (pre' & x & -> & Hx) & Hpost)].
        -- left. exists (c :: u), post. rewrite <-app_assoc. by split_and!.
        -- right. exists (c :: pre' ++ [x]), post.
           split_and!; [done| |done]. by exists (c :: pre'), x.
      * intros (Hne & Hns & Hcase). split_and!; [done..|].
        destruct Hcase as [(u & post & -> & Hl & Hpost)|(pre & post & Hl & (pre' & x & -> & Hx) & Hpost)].
        -- destruct u as [|y u].
           ++ simpl in Hl. subst post.
              destruct Hpost as [|(y & post' & [= <- <-] & Hy)]; [done|congruence].
           ++ injection Hl as <- ->. left. exists u, post.
              rewrite <-app_assoc. by split_and!.
        -- destruct pre' as [|y pre'].
           ++ injection Hl as <- ->. congruence.
           ++ injection Hl as <- ->. right. exists (pre' ++ [x]), post.
              split_and!; [done| |done]. by exists pre', x.
Qed.


Lemma chars_app (a b : string) : chars (a +:+ b) = chars a ++ chars b.
Proof.
  unfold chars. induction a as [|c a IH]; [done|].
  change (String c a +:+ b) with (String c (a +:+ b)). simpl. by rewrite IH.
Qed.

Lemma str_app (a b : list ascii) :
  string_of_list_ascii (a ++ b) = string_of_list_ascii a +:+ string_of_list_ascii b.
Proof. induction a as [|c a IH]; [done|]. simpl. by rewrite IH. Qed.

Lemma chars_inj (a b : string) : chars a = chars b → a = b.
Proof.
  unfold chars. intros H.
  by rewrite <-(string_of_list_ascii_of_string a), H, string_of_list_ascii_of_string.
Qed.

Lemma chars_str (l : list ascii) : chars (string_of_list_ascii l) = l.
Proof. apply list_ascii_of_string_of_list_ascii. Qed.

Lemma closes_list_string (post : list ascii) :
  (post = [] ∨ ∃ c post', post = c :: post' ∧ separator c = true)
  ↔ (string_of_list_ascii post = "" ∨ starts_with_separator (string_of_list_ascii post)).
Proof.
  split.
  - intros [->|(c & post' & -> & Hc)]; [by left|right].
    by exists c, (string_of_list_ascii post').
  - intros [Hnil|(c & s' & Hs & Hc)].
    + left. destruct post; [done|discriminate].
    + right. destruct post as [|c' post']; [discriminate|].
      injection Hs as -> _. eauto.
Qed.

Lemma opens_list_string (pre : list ascii) :
  (∃ pre' c, pre = pre' ++ [c] ∧ separator c = true)
  ↔ ends_in_separator (string_of_list_ascii pre).
Proof.
  split.
  - intros (pre' & c & -> & Hc). exists (string_of_list_ascii pre'), c.
    by rewrite str_app.
  - intros (s' & c & Hs & Hc). exists (chars s'), c. split; [|done].
    rewrite <-(chars_str pre), Hs, chars_app. done.
Qed.

Lemma parseRoles_elem (s role : string) :
  role ∈ parseRoles s
  ↔ role ≠ "" ∧ chars role ∈ split_runs (chars s) [] false.
Proof.
  unfold parseRoles, filterBoolean, split_separators.
  rewrite list_elem_of_filter, list_elem_of_fmap. fold (chars s). split.
  - intros (Hne & t & -> & Ht). by rewrite chars_str.
  - intros (Hne & Ht). split; [done|]. exists (chars role). split; [|done].
    unfold chars. by rewrite string_of_list_ascii_of_string.
Qed.

Lemma chars_nil (s : string) : chars s = [] ↔ s = "".
Proof. destruct s; split; done. Qed.

(** A capital of a separator is a separator: no separator is a letter
    of a word that [toLowerCase] maps to a word of letters. *)
Lemma separator_lower (c : ascii) :
  separator c = true → separator (lower_char c) = true.
Proof. destruct c as [[] [] [] [] [] [] [] []]; vm_compute; done. Qed.

Lemma admin_word_nonsep (w : string) :
  toLowerCase w = "admin" → w ≠ "" ∧ Forall nonsep (chars w).
Proof.
  intros Hw. split; [by destruct w|].
  destruct w as [|c1 [|c2 [|c3 [|c4 [|c5 [|c6 w]]]]]]; try discriminate.
  simpl in Hw. injection Hw as H1 H2 H3 H4 H5.
  unfold chars, nonsep; simpl.
  repeat constructor;
    match goal with
    | |- separator ?c = false =>
        destruct (separator c) eqn:Hsep; [|done];
        apply separator_lower in Hsep;
        first [rewrite H1 in Hsep|rewrite H2 in Hsep|rewrite H3 in Hsep
              |rewrite H4 in Hsep|rewrite H5 in Hsep];
        vm_compute in Hsep; discriminate
    end.
Qed.

Lemma parseRoles_spec (s role : string) :
  role ∈ parseRoles s
  ↔ role ≠ ""
    ∧ Forall (λ c, separator c = false) (chars role)
    ∧ ∃ pre post,
        s = pre +:+ role +:+ post ∧ delimited pre post.
Proof.
  rewrite parseRoles_elem.
  pose proof (split_runs_elem (chars s) [] false
                (chars role) ltac:(constructor) ltac:(done)) as Hspec.
  rewrite chars_nil in Hspec. split.
  - intros [Hne Hin].
    destruct (proj1 Hspec (conj Hin Hne)) as (_ & Hns & Hcase).
    split_and!; [done..|].
    destruct Hcase as [(u & post & Hu & Hs & Hpost)|(pre & post & Hs & Hpre & Hpost)].
    + simpl in Hu. subst u. exists "", (string_of_list_ascii post). split.
      * apply chars_inj.
        by rewrite !chars_app, chars_str.
      * split; [by left|]. by apply closes_list_string.
    + exists (string_of_list_ascii pre), (string_of_list_ascii post). split.
      * apply chars_inj.
        by rewrite !chars_app, !chars_str.
      * split; [right; by apply opens_list_string|].
        by apply closes_list_string.
  - intros (Hne & Hns & pre & post & -> & Hpre & Hpost).
    split; [done|]. apply Hspec. split_and!; [done..|].
    rewrite !chars_app.
    assert (chars post = []
            ∨ ∃ c post', chars post = c :: post'
                         ∧ separator c = true) as Hpost'.
    { apply closes_list_string. unfold chars.
      by rewrite string_of_list_ascii_of_string. }
    destruct Hpre as [->|Hpre].
    + left. exists (chars role), (chars post). by split_and!.
    + right. exists (chars pre), (chars post).
      split_and!; [done| |done].
      apply opens_list_string. unfold chars.
      by rewrite string_of_list_ascii_of_string.
Qed.

Lemma rolesOf_insert_admin_id (h : headers) (v : HeaderValue) :
  rolesOf (<["x-admin-id" := v]> h) = rolesOf h.
Proof.
  unfold rolesOf, rolesHeader.
  by rewrite !lookup_insert_ne by discriminate.
Qed.

Lemma adminIdOf_insert_admin_id (h : headers) (id : string) :
  adminIdOf (<["x-admin-id" := One id]> h) = Some id.
Proof. unfold adminIdOf, stringHeader. by rewrite lookup_insert_eq. Qed.

Lemma preHandler_Return verify (req req' : request) :
  preHandler verify req = Return req' →
  verify req = Return tt
  ∧ isAdmin (rolesOf (reqHeaders req)) = true
  ∧ ∃ id, id ≠ "" ∧ adminIdOf (reqHeaders req) = Some id
          ∧ req' = Request (<["x-admin-id" := One id]> (reqHeaders req))
                     (logBindings req ++ childBindings id).
Proof.
  unfold preHandler.
  destruct (verify req) as [[]|e]; [|done].
  destruct (isAdmin (rolesOf (reqHeaders req))); [|done]. simpl.
  destruct (adminIdOf (reqHeaders req)) as [id|]; [|done]. simpl.
  destruct (decide (id = "")); [done|].
  intros [= <-]. split_and!; [done..|]. by exists id.
Qed.

End AdminFacts.

(** X6. The roles read from a header value are exactly the non-empty
    texts without comma or white space that stand in it between
    separators or at its ends: no role is empty, none contains a
    separator, and none is a part of a longer word. *)
Theorem parseRoles_are_the_delimited_words (s role : string) :
  role ∈ AdminRoutes.parseRoles s
  ↔ role ≠ ""
    ∧ Forall (λ c, AdminRoutes.separator c = false) (AdminRoutes.chars role)
    ∧ ∃ pre post,
        s = pre +:+ role +:+ post ∧ AdminRoutes.delimited pre post.
Proof. apply AdminFacts.parseRoles_spec. Qed.

(** X7. The role check is true exactly when the header value holds
    the word admin, in any mix of capitals, between separators or at an
    end of the value; a word that only contains it does not count. *)
Theorem isAdmin_iff_delimited_admin_word (s : string) :
  AdminRoutes.isAdmin (AdminRoutes.parseRoles s) = true
  ↔ ∃ pre w post,
      s = pre +:+ w +:+ post
      ∧ AdminRoutes.toLowerCase w = "admin"
      ∧ AdminRoutes.delimited pre post.
Proof.
  unfold AdminRoutes.isAdmin. rewrite existsb_exists. split.
  - intros (role & Hin & Hw). apply bool_decide_eq_true in Hw.
    apply list_elem_of_In, AdminFacts.parseRoles_spec in Hin
      as (_ & _ & pre & post & Hs & Hd).
    by exists pre, role, post.
  - intros (pre & w & post & Hs & Hw & Hd).
    destruct (AdminFacts.admin_word_nonsep w Hw) as [Hne Hns].
    exists w. split; [|by apply bool_decide_eq_true].
    apply list_elem_of_In, AdminFacts.parseRoles_spec.
    split_and!; [done..|]. by exists pre, post.
Qed.

(** The word must stand alone: a hyphen is no separator. *)
Example isAdmin_examples :
  AdminRoutes.isAdmin (AdminRoutes.parseRoles "viewer, ADMIN") = true
  ∧ AdminRoutes.isAdmin (AdminRoutes.parseRoles "editor Admin,") = true
  ∧ AdminRoutes.isAdmin (AdminRoutes.parseRoles "administrator") = false
  ∧ AdminRoutes.isAdmin (AdminRoutes.parseRoles "super-admin") = false
  ∧ AdminRoutes.isAdmin (AdminRoutes.parseRoles "") = false.
Proof. vm_compute. done. Qed.

(** X8. A request that passes the hook comes out normalized: the
    calling service was verified, a role is admin, and [x-admin-id] is a
    string that is not empty, the admin id, taken from [x-admin-id] if
    that was a string and from [x-user-id] otherwise; every other
    header is as it was. The hook accepts the request it produced, with
    the same headers and the same admin id, as long as the service
    verification still passes. *)
Theorem preHandler_normalizes_admin_id
    (verify : AdminRoutes.request → outcome exn unit)
    (req req' : AdminRoutes.request) :
  AdminRoutes.preHandler verify req = Return req' →
  verify req = Return tt
  ∧ AdminRoutes.isAdmin (AdminRoutes.rolesOf (AdminRoutes.reqHeaders req)) = true
  ∧ ∃ id,
      id ≠ ""
      ∧ AdminRoutes.adminIdOf (AdminRoutes.reqHeaders req) = Some id
      ∧ AdminRoutes.reqHeaders req' !! "x-admin-id" = Some (AdminRoutes.One id)
      ∧ (∀ name, name ≠ "x-admin-id" →
           AdminRoutes.reqHeaders req' !! name = AdminRoutes.reqHeaders req !! name)
      ∧ (verify req' = Return tt →
         AdminRoutes.preHandler verify req'
         = Return (AdminRoutes.Request (AdminRoutes.reqHeaders req')
                     (AdminRoutes.logBindings req' ++ AdminRoutes.childBindings id))).
Proof.
  intros Hrun.
  destruct (AdminFacts.preHandler_Return _ _ _ Hrun)
    as (Hverify & Hadmin & id & Hne & Hid & ->).
  split_and!; [done..|]. exists id. simpl. split_and!; [done..| | |].
  - apply lookup_insert_eq.
  - intros name Hname. by rewrite lookup_insert_ne.
  - intros Hverify'. unfold AdminRoutes.preHandler. rewrite Hverify'. simpl.
    rewrite AdminFacts.rolesOf_insert_admin_id, Hadmin. simpl.
    rewrite AdminFacts.adminIdOf_insert_admin_id. simpl.
    destruct (decide (id = "")); [done|]. simpl.
    by rewrite insert_insert_eq.
Qed.

Lemma preHandler_normalizes_witness :
  ∃ id,
    id ≠ ""
    ∧ AdminRoutes.adminIdOf (AdminRoutes.reqHeaders AdminRoutes.viaUserHeaders)
      = Some id
    ∧ AdminRoutes.reqHeaders
        (AdminRoutes.Request
           (<["x-admin-id" := AdminRoutes.One "u-42"]>
              (AdminRoutes.reqHeaders AdminRoutes.viaUserHeaders))
           (AdminRoutes.childBindings "u-42"))
      !! "x-admin-id"
      = Some (AdminRoutes.One id).
Proof.
  assert (AdminRoutes.preHandler AdminRoutes.verified AdminRoutes.viaUserHeaders
          = Return (AdminRoutes.Request
                      (<["x-admin-id" := AdminRoutes.One "u-42"]>
                         (AdminRoutes.reqHeaders AdminRoutes.viaUserHeaders))
                      (AdminRoutes.childBindings "u-42"))) as Hrun.
  { vm_compute. reflexivity. }
  destruct (preHandler_normalizes_admin_id _ _ _ Hrun)
    as (_ & _ & id & Hne & Hid & Hlookup & _).
  exists id. split; [exact Hne|]. split; [exact Hid|]. exact Hlookup.
Defined.

(** X9. What the hook refuses, in this order. An exception of the
    service verification is thrown on as it is. Without an admin role
    the answer is 403, whatever identifies the admin. A header
    [x-admin-role] that is present decides alone: an array, or a string
    that names no admin role, gives 403 even when [x-user-roles] names
    one. With an admin role, an [x-admin-id] that is the empty string
    gives 400 even when [x-user-id] holds an id, and so does the absence
    of both. *)
Theorem preHandler_refusals
    (verify : AdminRoutes.request → outcome exn unit)
    (req : AdminRoutes.request) :
  let h := AdminRoutes.reqHeaders req in
  (∀ e, verify req = Throw e → AdminRoutes.preHandler verify req = Throw e)
  ∧ (verify req = Return tt →
     AdminRoutes.isAdmin (AdminRoutes.rolesOf h) = false →
     AdminRoutes.preHandler verify req = Throw (HttpError 403 "Admin role required"))
  ∧ (∀ v, h !! "x-admin-role" = Some v →
       match v with
       | AdminRoutes.One s => AdminRoutes.isAdmin (AdminRoutes.parseRoles s) = false
       | AdminRoutes.Many _ => True
       end →
       AdminRoutes.isAdmin (AdminRoutes.rolesOf h) = false)
  ∧ (verify req = Return tt →
     AdminRoutes.isAdmin (AdminRoutes.rolesOf h) = true →
     h !! "x-admin-id" = Some (AdminRoutes.One "")
     ∨ (AdminRoutes.stringHeader h "x-admin-id" = None
        ∧ (AdminRoutes.stringHeader h "x-user-id" = None
           ∨ AdminRoutes.stringHeader h "x-user-id" = Some "")) →
     AdminRoutes.preHandler verify req
     = Throw (HttpError 400 "Missing admin identifier (x-admin-id or x-user-id)")).
Proof.
  simpl. split_and!.
  - intros e He. unfold AdminRoutes.preHandler. by rewrite He.
  - intros Hv Hadmin. unfold AdminRoutes.preHandler. by rewrite Hv, Hadmin.
  - intros v Hrole Hv. unfold AdminRoutes.rolesOf, AdminRoutes.rolesHeader.
    rewrite Hrole. by destruct v.
  - intros Hv Hadmin Hid. unfold AdminRoutes.preHandler.
    rewrite Hv, Hadmin. simpl.
    assert (falsy_string (AdminRoutes.adminIdOf (AdminRoutes.reqHeaders req)) = true)
      as ->; [|done].
    unfold AdminRoutes.adminIdOf.
    destruct Hid as [Hempty|[-> [->| ->]]]; [|done..].
    unfold AdminRoutes.stringHeader. by rewrite Hempty.
Qed.

Lemma preHandler_refusals_witness :
  AdminRoutes.preHandler AdminRoutes.verified AdminRoutes.emptyAdminRole
  = Throw (HttpError 403 "Admin role required").
Proof.
  apply (proj1 (proj2 (preHandler_refusals AdminRoutes.verified
                         AdminRoutes.emptyAdminRole))).
  - reflexivity.
  - vm_compute. reflexivity.
Defined.

(* ===================================================================== *)
(** * Further properties of the routes                                    *)
(* ===================================================================== *)

Module StubFacts.
Import StubRoutes.

Lemma dropTrailingSlash_snoc (base : string) :
  dropTrailingSlash (base +:+ "/") = base.
Proof.
  induction base as [|c base IH]; [done|].
  change (String c base +:+ "/") with (String c (base +:+ "/")).
  cbn [dropTrailingSlash]. rewrite IH.
  destruct base; reflexivity.
Qed.

Lemma dropTrailingSlash_id (s : string) :
  endsWithSlash s = false → dropTrailingSlash s = s.
Proof.
  induction s as [|c s IH]; [done|]. cbn [endsWithSlash dropTrailingSlash].
  destruct s as [|c' s].
  - intros H. apply bool_decide_eq_false in H. by destruct (decide (c = "/"%char)).
  - intros H. by rewrite IH.
Qed.

End StubFacts.

(** X10. The stub strips exactly one slash from the end of the CDN
    base: for every base, the thumbnails built from the base followed by
    a slash are the base, [/thumbnails/], the id and the file name; so a
    base that does not end in a slash gives the same response with and
    without one added. *)
Theorem buildStubResponse_trailing_slash
    (nowIso id base owner : string) :
  StubRoutes.thumbnails (StubRoutes.buildStubResponse nowIso id (base +:+ "/") owner)
  = [ {| StubRoutes.url := (base +:+ "/thumbnails/" +:+ id) +:+ "/default.jpg";
         StubRoutes.width := 1280; StubRoutes.height := 720 |};
      {| StubRoutes.url := (base +:+ "/thumbnails/" +:+ id) +:+ "/hq.jpg";
         StubRoutes.width := 1920; StubRoutes.height := 1080 |} ]
  ∧ (StubRoutes.endsWithSlash base = false →
     StubRoutes.buildStubResponse nowIso id (base +:+ "/") owner
     = StubRoutes.buildStubResponse nowIso id base owner).
Proof.
  unfold StubRoutes.buildStubResponse. simpl.
  rewrite StubFacts.dropTrailingSlash_snoc. split; [done|].
  intros Hbase. by rewrite (StubFacts.dropTrailingSlash_id base Hbase).
Qed.

Lemma buildStubResponse_trailing_slash_witness :
  StubRoutes.buildStubResponse "2024-01-01T00:00:00.000Z" "0a1b2c3d-video"
    ("https://cdn.local.pocketlol" +:+ "/") "owner-1"
  = StubRoutes.buildStubResponse "2024-01-01T00:00:00.000Z" "0a1b2c3d-video"
      "https://cdn.local.pocketlol" "owner-1".
Proof.
  apply (proj2 (buildStubResponse_trailing_slash "2024-01-01T00:00:00.000Z"
                  "0a1b2c3d-video" "https://cdn.local.pocketlol" "owner-1")).
  vm_compute. reflexivity.
Defined.

(** Only one slash goes: a base that ends in two keeps one, and the
    title takes the first eight characters of the id. *)
Example buildStubResponse_example :
  let r := StubRoutes.buildStubResponse "2024-01-01T00:00:00.000Z"
             "0a1b2c3d-video" "https://cdn//" "owner-1" in
  StubRoutes.url <$> StubRoutes.thumbnails r
  = ["https://cdn//thumbnails/0a1b2c3d-video/default.jpg";
     "https://cdn//thumbnails/0a1b2c3d-video/hq.jpg"]
  ∧ StubRoutes.title r = "PocketLOL Video 0a1b2c3d".
Proof. vm_compute. done. Qed.

(** X11. The viewer routes with the monitor and the viewer routes
    without it answer alike, reply and log, for every service call that
    does not throw a [CatalogConsistencyError]; when one is thrown, the
    routes without the monitor throw it on and the routes with it reply
    500 and log once. *)
Theorem monitored_routes_extend_plain_routes
    (config : ViewerRoutes.RouteConfig)
    (service : ViewerRoutes.ViewerCatalogService) :
  (∀ query,
     match ViewerRoutes.getFeed service query with
     | Throw (CatalogConsistencyError issue) =>
         ViewerRoutesPlain.feedHandler config service query
           = (Throw (CatalogConsistencyError issue), [])
         ∧ ∃ entry,
             ViewerRoutes.feedHandler config service query
             = (Return (Fastify.Reply 500 []
                          (Fastify.QualityFailure "Catalog data quality issue"
                             (kind issue))), [entry])
     | _ =>
         ViewerRoutes.feedHandler config service query
         = ViewerRoutesPlain.feedHandler config service query
     end)
  ∧ (∀ slug,
       match ViewerRoutes.getSeriesDetail service slug with
       | Throw (CatalogConsistencyError issue) =>
           ViewerRoutesPlain.seriesDetailHandler config service slug
             = (Throw (CatalogConsistencyError issue), [])
           ∧ ∃ entry,
               ViewerRoutes.seriesDetailHandler config service slug
               = (Return (Fastify.Reply 500 []
                            (Fastify.QualityFailure "Catalog data quality issue"
                               (kind issue))), [entry])
       | _ =>
           ViewerRoutes.seriesDetailHandler config service slug
           = ViewerRoutesPlain.seriesDetailHandler config service slug
       end)
  ∧ (∀ slug limit,
       match ViewerRoutes.getRelatedSeries service slug limit with
       | Throw (CatalogConsistencyError issue) =>
           ViewerRoutesPlain.relatedSeriesHandler config service slug limit
             = (Throw (CatalogConsistencyError issue), [])
           ∧ ∃ entry,
               ViewerRoutes.relatedSeriesHandler config service slug limit
               = (Return (Fastify.Reply 500 []
                            (Fastify.QualityFailure "Catalog data quality issue"
                               (kind issue))), [entry])
       | _ =>
           ViewerRoutes.relatedSeriesHandler config service slug limit
           = ViewerRoutesPlain.relatedSeriesHandler config service slug limit
       end).
Proof.
  split_and!.
  - intros query.
    unfold ViewerRoutes.feedHandler, ViewerRoutesPlain.feedHandler.
    destruct (ViewerRoutes.getFeed service query) as [result|[]]; try done.
    split; [done|]. by eexists.
  - intros slug.
    unfold ViewerRoutes.seriesDetailHandler, ViewerRoutesPlain.seriesDetailHandler.
    destruct (ViewerRoutes.getSeriesDetail service slug) as [result|[]]; try done.
    split; [done|]. by eexists.
  - intros slug limit.
    unfold ViewerRoutes.relatedSeriesHandler, ViewerRoutesPlain.relatedSeriesHandler.
    destruct (ViewerRoutes.getRelatedSeries service slug limit) as [result|[]];
      try done.
    split; [done|]. by eexists.
Qed.

(** X12. Only a 200 carries cache headers. Whatever the service does,
    the reply of a viewer route has no header at all unless the service
    returned a result; then the status is 200, [cache-control] names the
    time to live of that route (the feed's for the categories) and
    [x-cache] says hit exactly when the result came from the cache. *)
Theorem viewer_routes_cache_headers_only_on_200
    (config : ViewerRoutes.RouteConfig)
    (service : ViewerRoutes.ViewerCatalogService) :
  (∀ query,
     let reply := Fastify.respond (ViewerRoutes.feedHandler config service query) in
     match ViewerRoutes.getFeed service query with
     | Return result =>
         Fastify.status reply = 200
         ∧ Fastify.headers reply
           = [("cache-control",
               "public, max-age=" +:+ pretty (ViewerRoutes.FEED_CACHE_TTL_SECONDS config));
              ("x-cache", if Catalog.feedFromCache result then "hit" else "miss")]
     | Throw _ => Fastify.headers reply = []
     end)
  ∧ (∀ slug,
       let reply :=
         Fastify.respond (ViewerRoutes.seriesDetailHandler config service slug) in
       match ViewerRoutes.getSeriesDetail service slug with
       | Return (Some result) =>
           Fastify.status reply = 200
           ∧ Fastify.headers reply
             = [("cache-control",
                 "public, max-age="
                 +:+ pretty (ViewerRoutes.SERIES_CACHE_TTL_SECONDS config));
                ("x-cache", if Catalog.detailFromCache result then "hit" else "miss")]
       | Return None => Fastify.status reply = 404 ∧ Fastify.headers reply = []
       | Throw _ => Fastify.headers reply = []
       end)
  ∧ (∀ slug limit,
       let reply :=
         Fastify.respond
           (ViewerRoutes.relatedSeriesHandler config service slug limit) in
       match ViewerRoutes.getRelatedSeries service slug limit with
       | Return (Some result) =>
           Fastify.status reply = 200
           ∧ Fastify.headers reply
             = [("cache-control",
                 "public, max-age="
                 +:+ pretty (ViewerRoutes.RELATED_CACHE_TTL_SECONDS config));
                ("x-cache", if Catalog.relatedFromCache result then "hit" else "miss")]
       | Return None => Fastify.status reply = 404 ∧ Fastify.headers reply = []
       | Throw _ => Fastify.headers reply = []
       end)
  ∧ (∀ query,
       let reply :=
         Fastify.respond (ViewerRoutes.categoriesHandler config service query) in
       match ViewerRoutes.listCategories service query with
       | Return result =>
           Fastify.status reply = 200
           ∧ Fastify.headers reply
             = [("cache-control",
                 "public, max-age="
                 +:+ pretty (ViewerRoutes.FEED_CACHE_TTL_SECONDS config))]
       | Throw _ => Fastify.headers reply = []
       end).
Proof.
  split_and!.
  - intros query. unfold ViewerRoutes.feedHandler. simpl.
    destruct (ViewerRoutes.getFeed service query) as [result|[]]; done.
  - intros slug. unfold ViewerRoutes.seriesDetailHandler. simpl.
    destruct (ViewerRoutes.getSeriesDetail service slug) as [[result|]|[]]; done.
  - intros slug limit. unfold ViewerRoutes.relatedSeriesHandler. simpl.
    destruct (ViewerRoutes.getRelatedSeries service slug limit) as [[result|]|[]];
      done.
  - intros query. unfold ViewerRoutes.categoriesHandler. simpl.
    destruct (ViewerRoutes.listCategories service query) as [result|[]]; done.
Qed.

(** The feed of the small catalog, its broken item taken out: 200 and
    the two headers. *)
Example feed_200 :
  Fastify.respond
    (ViewerRoutes.feedHandler Wiring.ttls
       (Wiring.viewerCatalog Wiring.reference
          (λ _, {| Catalog.items := [Wiring.episode1]; Catalog.nextCursor := Some "c1";
                   Catalog.feedFromCache := true |})
          Wiring.resolve (λ _, []) (λ _, ([], None)))
       {| Catalog.limit := 10; Catalog.cursor := None |})
  = Fastify.Reply 200
      [("cache-control", "public, max-age=60"); ("x-cache", "hit")]
      (Fastify.FeedBody [Wiring.episode1] (Some "c1")).
Proof. vm_compute. reflexivity. Qed.

(** X13. The routes that take events and assets never let an
    exception of the service out: for a request that the schemas of the
    route parse, whatever the service does, the handler replies. The
    reply is the success code of the route (200, or 202 for the two
    event routes), 404 or 412 with the message of the service's error
    and nothing logged, or 500 with the fixed message of the route and
    one log entry that holds the error; the metrics route knows only 202
    and 500. *)
Theorem event_routes_always_reply
    {Metrics : Type} (catalog : InternalRoutes.CatalogService)
    (applyMetrics : list Metrics → outcome exn unit) :
  (∀ id body, ∃ reply log,
     InternalRoutes.registerAssetHandler catalog id body = (Return reply, log)
     ∧ (Fastify.status reply = 200 ∧ log = []
        ∨ (Fastify.status reply = 404 ∨ Fastify.status reply = 412)
          ∧ log = []
          ∧ (∃ code message,
               InternalRoutes.registerEpisodeAsset catalog
                 InternalRoutes.systemActorId
                 {| Fastify.episodeId := id; Fastify.fields := body |}
               = Throw (CatalogServiceError code message)
               ∧ Fastify.sent reply = Fastify.Message message)
        ∨ ∃ error,
            InternalRoutes.registerEpisodeAsset catalog
              InternalRoutes.systemActorId
              {| Fastify.episodeId := id; Fastify.fields := body |}
            = Throw error
            ∧ reply = Fastify.Reply 500 []
                        (Fastify.Message "Unable to register episode asset")
            ∧ log = [InternalRoutes.logged error (Some id)
                       "Failed to register episode asset via internal route"]))
  ∧ (∀ event, ∃ reply log,
       InternalRoutes.mediaProcessedHandler catalog event = (Return reply, log)
       ∧ (reply = Fastify.Reply 202 [] Fastify.Accepted ∧ log = []
          ∨ (Fastify.status reply = 404 ∨ Fastify.status reply = 412)
            ∧ log = []
            ∧ (∃ code message,
                 InternalRoutes.registerEpisodeAsset catalog
                   InternalRoutes.systemActorId event
                 = Throw (CatalogServiceError code message)
                 ∧ Fastify.sent reply = Fastify.Message message)
          ∨ ∃ error,
              InternalRoutes.registerEpisodeAsset catalog
                InternalRoutes.systemActorId event
              = Throw error
              ∧ reply = Fastify.Reply 500 []
                          (Fastify.Message "Unable to apply media processed event")
              ∧ log = [InternalRoutes.logged error (Some (Fastify.episodeId event))
                         "Failed to process media event"]))
  ∧ (∀ metrics, ∃ reply log,
       InternalEvents.metricsHandler applyMetrics metrics = (Return reply, log)
       ∧ (applyMetrics metrics = Return tt
          ∧ reply = Fastify.Reply 202 [] Fastify.Accepted ∧ log = []
          ∨ ∃ error,
              applyMetrics metrics = Throw error
              ∧ reply = Fastify.Reply 500 []
                          (Fastify.Message "Unable to persist engagement metrics")
              ∧ log = [InternalRoutes.logged error None
                         "Failed to apply engagement metrics"])).
Proof.
  assert (∀ episode logMessage replyMessage error, ∃ reply log,
            InternalRoutes.catchRegisterFailure episode logMessage replyMessage error
            = (Return reply, log)
            ∧ ((Fastify.status reply = 404 ∨ Fastify.status reply = 412)
               ∧ log = []
               ∧ (∃ code message, error = CatalogServiceError code message
                                  ∧ Fastify.sent reply = Fastify.Message message)
               ∨ reply = Fastify.Reply 500 [] (Fastify.Message replyMessage)
                 ∧ log = [InternalRoutes.logged error (Some episode) logMessage]))
    as Hcatch.
  { intros episode logMessage replyMessage error.
    unfold InternalRoutes.catchRegisterFailure.
    destruct error as [| | |code message|]; try (eexists _, _; split; [done|]; by right).
    destruct (decide (code = "NOT_FOUND")).
    { eexists _, _. split; [done|]. left. split_and!; [by left|done|]. by eexists _, _. }
    destruct (decide (code = "FAILED_PRECONDITION")).
    { eexists _, _. split; [done|]. left. split_and!; [by right|done|]. by eexists _, _. }
    eexists _, _. split; [done|]. by right. }
  split_and!.
  - intros id body. unfold InternalRoutes.registerAssetHandler.
    destruct (InternalRoutes.registerEpisodeAsset _ _ _) as [result|error] eqn:Hcall.
    + eexists _, _. split; [done|]. by left.
    + destruct (Hcatch id "Failed to register episode asset via internal route"
                  "Unable to register episode asset" error)
        as (reply & log & -> & [(Hst & -> & code & message & -> & Hsent)|[-> ->]]).
      * exists reply, []. split; [done|]. right; left.
        split_and!; [done..|]. by exists code, message.
      * eexists _, _. split; [done|]. right; right. by exists error.
  - intros event. unfold InternalRoutes.mediaProcessedHandler.
    destruct (InternalRoutes.registerEpisodeAsset _ _ _) as [result|error] eqn:Hcall.
    + eexists _, _. split; [done|]. by left.
    + destruct (Hcatch (Fastify.episodeId event) "Failed to process media event"
                  "Unable to apply media processed event" error)
        as (reply & log & -> & [(Hst & -> & code & message & -> & Hsent)|[-> ->]]).
      * exists reply, []. split; [done|]. right; left.
        split_and!; [done..|]. by exists code, message.
      * eexists _, _. split; [done|]. right; right. by exists error.
  - intros metrics. unfold InternalEvents.metricsHandler.
    destruct (applyMetrics metrics) as [[]|error] eqn:Hcall.
    + eexists _, _. split; [done|]. by left.
    + eexists _, _. split; [done|]. right. by exists error.
Qed.

(** X14. The two routes that serve the metadata of an episode are one
    route under two names: for every id they return the same metadata or
    throw the same error of the service, and when the service knows no
    such episode both answer 404, each with its own message. *)
Theorem metadata_routes_are_aliases
    (getEpisodeMetadata : string → outcome exn (option Catalog.FeedItem))
    (id : string) :
  let video := InternalEvents.videoHandler getEpisodeMetadata id in
  let media := InternalEvents.mediaHandler getEpisodeMetadata id in
  match getEpisodeMetadata id with
  | Return (Some metadata) => video = Return metadata ∧ media = Return metadata
  | Return None =>
      video = Throw (HttpError 404 "Episode not found")
      ∧ media = Throw (HttpError 404 "Media not found")
  | Throw error => video = Throw error ∧ media = Throw error
  end.
Proof.
  simpl. unfold InternalEvents.videoHandler, InternalEvents.mediaHandler,
    InternalEvents.metadataHandler.
  by destruct (getEpisodeMetadata id) as [[metadata|]|error].
Qed.

(* ===================================================================== *)
(** * Start and shutdown                                                  *)
(* ===================================================================== *)

Module LifecycleFacts.
Import Lifecycle.

(** Case analysis on the calls the rest of the run depends on, in the
    order in which the process makes them. *)
Ltac cases_in_order f :=
  repeat match goal with
    | |- context [f LogStartFailed] =>
        let H := fresh "Hcall" in destruct (f LogStartFailed) eqn:H; simpl
    | |- context [f StopGrpc] =>
        let H := fresh "Hcall" in destruct (f StopGrpc) eqn:H; simpl
    | |- context [f DisconnectPrisma] =>
        let H := fresh "Hcall" in destruct (f DisconnectPrisma) eqn:H; simpl
    | |- context [f CloseApp] =>
        let H := fresh "Hcall" in destruct (f CloseApp) eqn:H; simpl
    | |- context [f (OnSignal ?signal)] =>
        let H := fresh "Hcall" in destruct (f (OnSignal signal)) eqn:H; simpl
    end.

(** A closed decidable statement, settled by evaluating its decision. *)
Ltac by_evaluation := apply (bool_decide_unpack _); vm_compute; exact I.

Ltac unfold_process :=
  unfold main, shutdown, release, assignedBefore, andThen, tryCatch, call, exit,
    skip; simpl.

End LifecycleFacts.

(** X15. Shutdown on a signal, when the two log calls do not throw:
    the process always exits, with code 0 when every clean-up call that
    was made succeeded and with code 1 otherwise. The clean-up runs in
    the order gRPC server, database client, HTTP server, and a call
    that fails keeps the later ones from being made: the gRPC server is
    stopped exactly when there is one, the database client is
    disconnected exactly when stopping the server did not fail, and the
    HTTP server is closed exactly when neither failed. *)
Theorem shutdown_exit_code (w : Lifecycle.World) :
  Lifecycle.fails w Lifecycle.LogShuttingDown = false →
  Lifecycle.fails w Lifecycle.LogShutdownError = false →
  let trace := fst (Lifecycle.shutdown w) in
  let stopped :=
    negb (Lifecycle.grpcServer w) || negb (Lifecycle.fails w Lifecycle.StopGrpc) in
  let code :=
    if stopped && negb (Lifecycle.fails w Lifecycle.DisconnectPrisma)
       && negb (Lifecycle.fails w Lifecycle.CloseApp)
    then 0 else 1 in
  snd (Lifecycle.shutdown w) = Lifecycle.Exited code
  ∧ last trace = Some (Lifecycle.Exit code)
  ∧ (Lifecycle.StopGrpc ∈ trace ↔ Lifecycle.grpcServer w = true)
  ∧ (Lifecycle.DisconnectPrisma ∈ trace ↔ stopped = true)
  ∧ (Lifecycle.CloseApp ∈ trace
     ↔ stopped = true ∧ Lifecycle.fails w Lifecycle.DisconnectPrisma = false)
  ∧ filter (λ s, s ∈ [Lifecycle.StopGrpc; Lifecycle.DisconnectPrisma;
                      Lifecycle.CloseApp]) trace
    `prefix_of` (if Lifecycle.grpcServer w
                 then [Lifecycle.StopGrpc; Lifecycle.DisconnectPrisma;
                       Lifecycle.CloseApp]
                 else [Lifecycle.DisconnectPrisma; Lifecycle.CloseApp]).
Proof.
  intros Hlog Herr. destruct w as [f g]. simpl in *.
  LifecycleFacts.unfold_process. rewrite Hlog. simpl.
  destruct g; simpl.
  - destruct (f Lifecycle.StopGrpc) eqn:Hstop; simpl; rewrite ?Herr; simpl.
    { split_and!; [done|done|LifecycleFacts.by_evaluation..|].
      by exists [Lifecycle.DisconnectPrisma; Lifecycle.CloseApp]. }
    destruct (f Lifecycle.DisconnectPrisma) eqn:Hdb; simpl; rewrite ?Herr; simpl.
    { split_and!; [done|done|LifecycleFacts.by_evaluation..|].
      by exists [Lifecycle.CloseApp]. }
    destruct (f Lifecycle.CloseApp) eqn:Hclose; simpl; rewrite ?Herr; simpl.
    { split_and!; [done|done|LifecycleFacts.by_evaluation..|].
      by exists []. }
    split_and!; [done|done|LifecycleFacts.by_evaluation..|].
    by exists [].
  - destruct (f Lifecycle.DisconnectPrisma) eqn:Hdb; simpl; rewrite ?Herr; simpl.
    { split_and!; [done|done|LifecycleFacts.by_evaluation..|].
      by exists [Lifecycle.CloseApp]. }
    destruct (f Lifecycle.CloseApp) eqn:Hclose; simpl; rewrite ?Herr; simpl.
    { split_and!; [done|done|LifecycleFacts.by_evaluation..|].
      by exists []. }
    split_and!; [done|done|LifecycleFacts.by_evaluation..|].
    by exists [].
Qed.

Lemma shutdown_exit_code_witness :
  snd (Lifecycle.shutdown
         (Lifecycle.worldWhere [Lifecycle.DisconnectPrisma] true))
  = Lifecycle.Exited 1.
Proof.
  apply (shutdown_exit_code
           (Lifecycle.worldWhere [Lifecycle.DisconnectPrisma] true));
    vm_compute; reflexivity.
Defined.

Example shutdown_runs :
  Lifecycle.shutdown (Lifecycle.worldWhere [] true)
  = ([Lifecycle.LogShuttingDown; Lifecycle.StopGrpc; Lifecycle.DisconnectPrisma;
      Lifecycle.CloseApp; Lifecycle.Exit 0], Lifecycle.Exited 0)
  ∧ Lifecycle.shutdown (Lifecycle.worldWhere [Lifecycle.StopGrpc] true)
    = ([Lifecycle.LogShuttingDown; Lifecycle.StopGrpc; Lifecycle.LogShutdownError;
        Lifecycle.Exit 1], Lifecycle.Exited 1).
Proof. vm_compute. done. Qed.

(** X16. Start of the process. [main] ends without exiting exactly
    when building the app, loading the configuration, listening,
    starting the gRPC server, the ready log line and the registration of
    both signal handlers all succeed. It never exits with a code other
    than 1, and when it exits it has logged the failure and called the
    database client and the HTTP server to close, and registered no
    signal handler. In the start-up [catch] the gRPC server is stopped
    only when the failure came from the ready log line: if listening or
    [startGrpcServer] itself fails there is no server to stop. *)
Theorem main_start_up (w : Lifecycle.World) :
  let trace := fst (Lifecycle.main w) in
  (snd (Lifecycle.main w) = Lifecycle.Done
   ↔ Forall (λ s, Lifecycle.fails w s = false)
       [Lifecycle.BuildApp; Lifecycle.LoadConfig; Lifecycle.Listen;
        Lifecycle.StartGrpc; Lifecycle.LogReady;
        Lifecycle.OnSignal "SIGTERM"; Lifecycle.OnSignal "SIGINT"])
  ∧ (∀ code, snd (Lifecycle.main w) = Lifecycle.Exited code →
       code = 1
       ∧ Lifecycle.fails w Lifecycle.BuildApp = false
       ∧ Lifecycle.fails w Lifecycle.LoadConfig = false
       ∧ Lifecycle.LogStartFailed ∈ trace
       ∧ Lifecycle.DisconnectPrisma ∈ trace
       ∧ Lifecycle.CloseApp ∈ trace
       ∧ (Lifecycle.OnSignal "SIGTERM" ∉ trace)
       ∧ (Lifecycle.OnSignal "SIGINT" ∉ trace))
  ∧ (Lifecycle.StopGrpc ∈ trace →
       Lifecycle.fails w Lifecycle.Listen = false
       ∧ Lifecycle.fails w Lifecycle.StartGrpc = false
       ∧ Lifecycle.fails w Lifecycle.LogReady = true
       ∧ Lifecycle.grpcServer w = true)
  ∧ (Lifecycle.OnSignal "SIGTERM" ∈ trace →
       Lifecycle.fails w Lifecycle.Listen = false
       ∧ Lifecycle.fails w Lifecycle.StartGrpc = false
       ∧ Lifecycle.fails w Lifecycle.LogReady = false
       ∧ (Lifecycle.StopGrpc ∉ trace)
       ∧ (Lifecycle.DisconnectPrisma ∉ trace)
       ∧ (Lifecycle.CloseApp ∉ trace)).
Proof.
  destruct w as [f g]. simpl.
  rewrite !Forall_cons, Forall_nil.
  LifecycleFacts.unfold_process.
  destruct (f Lifecycle.BuildApp) eqn:HbuildApp; simpl;
    [split_and!; [by intuition| intros code; by intuition
                 | LifecycleFacts.by_evaluation..]|].
  destruct (f Lifecycle.LoadConfig) eqn:HloadConfig; simpl;
    [split_and!; [by intuition| intros code; by intuition
                 | LifecycleFacts.by_evaluation..]|].
  destruct (f Lifecycle.Listen) eqn:Hlisten; simpl;
    [|destruct (f Lifecycle.StartGrpc) eqn:HstartGrpc; simpl;
      [|destruct (f Lifecycle.LogReady) eqn:HlogReady; simpl]];
    LifecycleFacts.cases_in_order f; try destruct g; simpl;
    LifecycleFacts.cases_in_order f;
    (split_and!;
     [ first [ by intuition | LifecycleFacts.by_evaluation ]
     | intros code Hcode; first [ discriminate Hcode | injection Hcode as <- ];
       split_and!; first [ done | LifecycleFacts.by_evaluation ]
     | LifecycleFacts.by_evaluation.. ]).
Qed.

(** Listening fails where a gRPC server would be had: nothing is
    stopped; the ready log line fails: the server is stopped first. *)
Example main_runs :
  Lifecycle.main (Lifecycle.worldWhere [Lifecycle.Listen] true)
  = ([Lifecycle.BuildApp; Lifecycle.LoadConfig; Lifecycle.Listen;
      Lifecycle.LogStartFailed; Lifecycle.DisconnectPrisma; Lifecycle.CloseApp;
      Lifecycle.Exit 1], Lifecycle.Exited 1)
  ∧ Lifecycle.main (Lifecycle.worldWhere [Lifecycle.LogReady] true)
    = ([Lifecycle.BuildApp; Lifecycle.LoadConfig; Lifecycle.Listen;
        Lifecycle.StartGrpc; Lifecycle.LogReady; Lifecycle.LogStartFailed;
        Lifecycle.StopGrpc; Lifecycle.DisconnectPrisma; Lifecycle.CloseApp;
        Lifecycle.Exit 1], Lifecycle.Exited 1)
  ∧ Lifecycle.main (Lifecycle.worldWhere [] true)
    = ([Lifecycle.BuildApp; Lifecycle.LoadConfig; Lifecycle.Listen;
        Lifecycle.StartGrpc; Lifecycle.LogReady;
        Lifecycle.OnSignal "SIGTERM"; Lifecycle.OnSignal "SIGINT"],
       Lifecycle.Done).
Proof. vm_compute. done. Qed.

(* ===================================================================== *)
(** * The service token                                                   *)
(* ===================================================================== *)

Module AuthTokenFacts.
Import AuthToken.

Lemma trimStart_nil (s : jsString) :
  trimStart s = [] ↔ Forall (λ u, trimmed u = true) s.
Proof.
  induction s as [|u s IH]; cbn [trimStart].
  - split; [constructor|done].
  - destruct (trimmed u) eqn:Hu.
    + rewrite IH. split; [by constructor|by inversion 1].
    + split; [done|]. inversion 1; congruence.
Qed.

(** What [trimStart] leaves starts with a character that is kept. *)
Lemma trimStart_head (s : jsString) :
  trimStart s = [] ∨ ∃ u r, trimStart s = u :: r ∧ trimmed u = false.
Proof.
  induction s as [|u s IH]; cbn [trimStart]; [by left|].
  destruct (trimmed u) eqn:Hu; [done|]. right. by exists u, s.
Qed.

Lemma trim_nil (s : jsString) :
  trim s = [] ↔ Forall (λ u, trimmed u = true) s.
Proof.
  unfold trim, trimEnd. split.
  - intros H. apply (f_equal reverse) in H. rewrite reverse_involutive in H.
    change (reverse []) with (@nil N) in H.
    apply trimStart_nil in H. rewrite Forall_reverse in H.
    destruct (trimStart_head s) as [Hs|(u & r & Hs & Hu)].
    + by apply trimStart_nil.
    + rewrite Hs in H. apply Forall_cons in H as [Hu' _]. congruence.
  - intros H. apply trimStart_nil in H. by rewrite H.
Qed.

End AuthTokenFacts.

(** X17. The service token of the configuration is all or nothing:
    the schema keeps the value of the environment exactly as it is, white
    space at its ends included, when it holds at least one character
    that is not white space, and makes it undefined otherwise (no value,
    the empty string, or white space only). *)
Theorem token_kept_verbatim_or_dropped (value : option AuthToken.jsString) :
  (∀ s, AuthToken.transform value = Some s
        ↔ value = Some s ∧ Exists (λ u, AuthToken.trimmed u = false) s)
  ∧ (AuthToken.transform value = None
     ↔ ∀ s, value = Some s → Forall (λ u, AuthToken.trimmed u = true) s).
Proof.
  assert (∀ s, (bool_decide (s ≠ []) && (0 <? length (AuthToken.trim s))%nat) = true
               ↔ Exists (λ u, AuthToken.trimmed u = false) s) as Hkept.
  { intros s. rewrite andb_true_iff, bool_decide_eq_true, Nat.ltb_lt.
    assert (Exists (λ u, AuthToken.trimmed u = false) s
            ↔ ¬ Forall (λ u, AuthToken.trimmed u = true) s) as ->.
    { split.
      - intros (u & Hin & Hu)%Exists_exists Hall.
        rewrite Forall_forall in Hall. specialize (Hall u Hin). congruence.
      - intros Hnot. apply not_Forall_Exists in Hnot; [|intros u; apply _].
        eapply Exists_impl; [done|]. simpl. intros u Hu.
        by destruct (AuthToken.trimmed u). }
    rewrite <-AuthTokenFacts.trim_nil.
    split.
    - intros [_ Hlen] Hnil. rewrite Hnil in Hlen. simpl in Hlen. lia.
    - intros Hne. split.
      + intros ->. by apply Hne.
      + destruct (AuthToken.trim s); [done|simpl; lia]. }
  split.
  - intros s. destruct value as [s'|]; simpl; [|split; [done|by intros [? _]]].
    destruct (bool_decide _ && _) eqn:Hs.
    + apply Hkept in Hs. split; [by intros [= ->]|by intros [[= ->] _]].
    + split; [done|]. intros [[= ->] Hex]. apply Hkept in Hex. congruence.
  - destruct value as [s'|]; simpl; [|split; [by intros _ s ?|done]].
    destruct (bool_decide _ && _) eqn:Hs.
    + apply Hkept in Hs. split; [done|]. intros Hall.
      specialize (Hall s' eq_refl).
      apply Exists_exists in Hs as (u & Hin & Hu).
      rewrite Forall_forall in Hall. specialize (Hall u Hin). congruence.
    + split; [|done]. intros _ s [= <-].
      apply Forall_forall. intros u Hin.
      destruct (AuthToken.trimmed u) eqn:Hu; [done|].
      assert (Exists (λ u, AuthToken.trimmed u = false) s') as Hex
        by (apply Exists_exists; eauto).
      apply Hkept in Hex. congruence.
Qed.

(** A token between blanks is kept with its blanks; blanks alone are
    no token. *)
Example token_examples :
  AuthToken.transform (Some [32; 116; 111; 107; 10]%N)
  = Some [32; 116; 111; 107; 10]%N
  ∧ AuthToken.transform (Some [32; 9; 160; 8232; 65279]%N) = None
  ∧ AuthToken.transform (Some []) = None
  ∧ AuthToken.trim [32; 116; 32; 111; 10]%N = [116; 32; 111]%N.
Proof. vm_compute. done. Qed.
